(** * away: the route table of the [away] HTTP router (way.go)

    A shallow embedding of [Router] (registration, removal, counting and
    dispatch), of the precedence comparator [routeList.Less] and of
    [route.match], and of the [Mux] of the router package that wraps them,
    followed by the properties of the route table.

    Modelling conventions.
    - A Go [string] is a byte string; it is a Rocq [string].  The functions of
      Go's [strings] package are transcribed on bytes.  [ToLower] and
      [EqualFold] are modelled on the ASCII letters only (bytes outside
      'A'..'Z' are left alone), which is what Go does on ASCII input.
    - A slice is a backing array with a length; [Router.Remove] is modelled on
      that representation because it reads the array while shrinking the slice.
    - A run-time panic is the result [None].
    - An [http.Handler] is opaque: the table never looks inside one.
    - [sort.Sort] belongs to Go's library, not to this repository; the table is
      parameterised by a sorting algorithm.  The general properties assume
      only the contract of [sort.Sort]; the insertion sort Go runs on short
      slices is the instance on which concrete tables are computed. *)

From Stdlib Require Import String Ascii List Bool Arith NArith Lia.
From Stdlib Require Import Permutation Sorted RelationClasses.
Import ListNotations.

Local Open Scope string_scope.
Local Open Scope list_scope.
Local Open Scope nat_scope.

(** ** Go's [strings] package, as far as way.go uses it *)

Module strings.

(** unicode.ToLower on an ASCII byte: [c += 'a' - 'A'] for 'A' <= c <= 'Z'. *)
Definition lowerByte (c : ascii) : ascii :=
  let n := nat_of_ascii c in
  if Nat.leb 65 n && Nat.leb n 90 then ascii_of_nat (n + 32) else c.

Fixpoint ToLower (s : string) : string :=
  match s with
  | EmptyString => EmptyString
  | String c t => String (lowerByte c) (ToLower t)
  end.

(** [strings.EqualFold] on ASCII strings: equality up to the case of letters. *)
Definition EqualFold (s t : string) : bool :=
  String.eqb (ToLower s) (ToLower t).

(** [len(s) >= len(prefix) && s[:len(prefix)] == prefix] *)
Definition HasPrefix (s prefix : string) : bool :=
  Nat.leb (String.length prefix) (String.length s)
  && String.eqb (substring 0 (String.length prefix) s) prefix.

(** [len(s) >= len(suffix) && s[len(s)-len(suffix):] == suffix] *)
Definition HasSuffix (s suffix : string) : bool :=
  Nat.leb (String.length suffix) (String.length s)
  && String.eqb
       (substring (String.length s - String.length suffix)
                  (String.length suffix) s)
       suffix.

(** [if HasPrefix(s, prefix) { return s[len(prefix):] }; return s] *)
Definition TrimPrefix (s prefix : string) : string :=
  if HasPrefix s prefix
  then substring (String.length prefix)
                 (String.length s - String.length prefix) s
  else s.

(** [strings.Contains(s, substr)]: [substr] occurs somewhere in [s]. *)
Fixpoint Contains (s substr : string) : bool :=
  HasPrefix s substr
  || match s with
     | EmptyString => false
     | String _ t => Contains t substr
     end.

Fixpoint trimLeftByte (s : string) (c : ascii) : string :=
  match s with
  | EmptyString => EmptyString
  | String a t => if Ascii.eqb a c then trimLeftByte t c else s
  end.

Fixpoint trimRightByte (s : string) (c : ascii) : string :=
  match s with
  | EmptyString => EmptyString
  | String a t =>
      let t' := trimRightByte t c in
      if String.eqb t' EmptyString && Ascii.eqb a c
      then EmptyString
      else String a t'
  end.

(** [strings.Trim(s, cutset)] for a cutset of one ASCII byte, the only use in
    way.go: [trimLeftByte(trimRightByte(s, cutset[0]), cutset[0])]. *)
Definition Trim (s : string) (cutset : ascii) : string :=
  trimLeftByte (trimRightByte s cutset) cutset.

(** [strings.Split(s, sep)] for a separator of one byte.  The result has one
    more element than [s] has separators; [Split("", "/")] is [[""]]. *)
Fixpoint Split (s : string) (sep : ascii) : list string :=
  match s with
  | EmptyString => [EmptyString]
  | String a t =>
      if Ascii.eqb a sep
      then EmptyString :: Split t sep
      else match Split t sep with
           | [] => [String a EmptyString]
           | h :: tl => String a h :: tl
           end
  end.

End strings.

Import strings.

(** ** Go's [sort] package

    [sort.Sort] only ever calls [Swap], so its result is a permutation of its
    input whatever [Less] answers; the result is in ascending order when
    [Less] is an ordering of the slots of the slice, as [sort.Interface]
    requires: no two slots each sort before the other, and both [Less] and
    its complement are transitive.  [Less] is only ever asked about two
    different slots. *)

(** [sort.IsSorted]: no element sorts before its left neighbour. *)
Fixpoint IsSorted {A : Type} (less : A -> A -> bool) (l : list A) : bool :=
  match l with
  | a :: (b :: _) as t => negb (less b a) && IsSorted less t
  | _ => true
  end.

Record LessContract {A : Type} (less : A -> A -> bool) (l : list A) : Prop := {
  less_asym : forall i j a b,
      i <> j -> nth_error l i = Some a -> nth_error l j = Some b ->
      less a b = true -> less b a = false;
  less_trans : forall i j k a b c,
      i <> j -> j <> k -> i <> k ->
      nth_error l i = Some a -> nth_error l j = Some b ->
      nth_error l k = Some c ->
      less a b = true -> less b c = true -> less a c = true;
  less_negtrans : forall i j k a b c,
      i <> j -> j <> k -> i <> k ->
      nth_error l i = Some a -> nth_error l j = Some b ->
      nth_error l k = Some c ->
      less a b = false -> less b c = false -> less a c = false
}.

Class SortAlgorithm := {
  sort_Sort : forall A : Type, (A -> A -> bool) -> list A -> list A
}.

Arguments sort_Sort {_} {A} less l.

Class SortContract `{SortAlgorithm} : Prop := {
  sort_Sort_Permutation : forall (A : Type) (less : A -> A -> bool) l,
      Permutation (sort_Sort less l) l;
  sort_Sort_IsSorted : forall (A : Type) (less : A -> A -> bool) l,
      LessContract less l -> IsSorted less (sort_Sort less l) = true
}.

(** [insertionSort] of Go's [sort] package:
    [for i := a+1; i < b; i++ { for j := i; j > a && Less(j, j-1); j-- { Swap(j, j-1) } }].
    It is all that [sort.Sort] runs on a slice of at most 12 elements (at most
    6 before Go 1.19, where a pass of Shell sort precedes it on 7 to 12
    elements).  [bubble] is the inner loop; it walks the already placed
    elements from the right, so they are kept in reverse. *)
Fixpoint bubble {A : Type} (less : A -> A -> bool) (x : A) (placed : list A)
  : list A :=
  match placed with
  | [] => [x]
  | y :: ys => if less x y then y :: bubble less x ys else x :: placed
  end.

Fixpoint insertionLoop {A : Type} (less : A -> A -> bool)
    (placed rest : list A) : list A :=
  match rest with
  | [] => rev placed
  | x :: rest' => insertionLoop less (bubble less x placed) rest'
  end.

Definition insertionSort {A : Type} (less : A -> A -> bool) (l : list A)
  : list A :=
  insertionLoop less [] l.

#[export] Instance insertionSortAlgorithm : SortAlgorithm :=
  {| sort_Sort := @insertionSort |}.

(** The elements [bubble] has placed, from right to left: no element sorts
    before the one placed to its left. *)
Definition placedOrder {A : Type} (less : A -> A -> bool) : list A -> Prop :=
  Sorted (fun right left => less right left = false).

(** Two slots do not each sort before the other. *)
Definition asymPair {A : Type} (less : A -> A -> bool) (a b : A) : Prop :=
  less a b && less b a = false.

(** ** The precedence comparator, on the two pattern strings (way.go, Less) *)

Definition lessPattern (si sj : string) : bool :=
  let siLower := ToLower si in
  let sjLower := ToLower sj in
  if HasPrefix sjLower "/:" then true
  else if HasPrefix siLower "/:" then false
  else if Contains sjLower ":" && negb (Contains siLower ":") then true
  else if negb (Contains sjLower ":") && Contains siLower ":" then false
  else if String.eqb siLower sjLower then String.ltb si sj
  else String.ltb siLower sjLower.

(** [r.pathSegments(p)] *)
Definition pathSegments (p : string) : list string :=
  Split (Trim p "/") "/".

(** ** Request contexts

    Only the values stored under a [wayContextKey] are visible to [Param]; a
    context is the chain of those bindings, the most recent first. *)

Definition wayContextKey := string.
Definition Ctx := list (wayContextKey * string).

Definition WithValue (ctx : Ctx) (key : wayContextKey) (val : string) : Ctx :=
  (key, val) :: ctx.

Fixpoint Value (ctx : Ctx) (key : wayContextKey) : option string :=
  match ctx with
  | [] => None
  | (k, v) :: parent => if String.eqb k key then Some v else Value parent key
  end.

(** [Param]: the empty string when the parameter is not found. *)
Definition Param (ctx : Ctx) (param : string) : string :=
  match Value ctx param with
  | Some vStr => vStr
  | None => EmptyString
  end.

(** ** Routes and the router *)

Section RouteTable.

Variable Handler : Type.

Record route := {
  pattern : string;
  method : string;
  segs : list string;
  handler : Handler;
  prefix : bool
}.

Definition routeList := list route.

Record Router := {
  routes : routeList;
  NotFound : Handler
}.

(** [NewRouter]; the argument stands for [http.NotFoundHandler()]. *)
Definition NewRouter (notFoundHandler : Handler) : Router :=
  {| routes := []; NotFound := notFoundHandler |}.

(** [routeList.Less] compares the patterns of two entries. *)
Definition routeLess (a b : route) : bool :=
  lessPattern (pattern a) (pattern b).

(** [s.Less(i, j)]; indexing out of range panics. *)
Definition Less (s : routeList) (i j : nat) : option bool :=
  match nth_error s i, nth_error s j with
  | Some a, Some b => Some (routeLess a b)
  | _, _ => None
  end.

(** [Router.Count] *)
Definition Count (r : Router) : nat := length (routes r).

(** The route value built by [Router.Handle]. *)
Definition newRoute (method pattern : string) (handler : Handler) : route :=
  {| pattern := pattern;
     method := ToLower method;
     segs := pathSegments pattern;
     handler := handler;
     prefix := HasSuffix pattern "/" || HasSuffix pattern "..." |}.

(** [Router.Handle]: append, then sort the whole table. *)
Definition Handle `{SortAlgorithm} (r : Router) (method pattern : string)
    (handler : Handler) : Router :=
  {| routes := sort_Sort routeLess (routes r ++ [newRoute method pattern handler]);
     NotFound := NotFound r |}.

(** *** Removal

    [r.routes] is a slice: the array [arr] (its length is the capacity) and
    the length [len].  [removeIndex] is [append(s[:index], s[index+1:]...)]:
    [s[index+1:]] panics unless [index+1 <= len(s)]; otherwise the elements
    after [index] move one place to the left inside the same array and the
    last place keeps its old content. *)

Record slice := { arr : list route; len : nat }.

Definition removeIndex (s : slice) (index : nat) : option slice :=
  if Nat.leb (index + 1) (len s)
  then Some {| arr := firstn index (arr s)
                      ++ firstn (len s - (index + 1)) (skipn (index + 1) (arr s))
                      ++ skipn (len s - 1) (arr s);
               len := len s - 1 |}
  else None.

(** The body of [for index, v := range r.routes]: the range expression is
    evaluated once, so the loop runs [n] times, [n] the length on entry, and
    reads [v] from the array as it is at that moment. *)
Fixpoint Remove_loop (method p : string) (n index : nat) (s : slice)
  : option slice :=
  match n with
  | 0 => Some s
  | S n' =>
      match nth_error (arr s) index with
      | None => None
      | Some v =>
          if String.eqb (pattern v) p && EqualFold (RouteTable.method v) method
          then match removeIndex s index with
               | Some s' => Remove_loop method p n' (S index) s'
               | None => None
               end
          else Remove_loop method p n' (S index) s
      end
  end.

(** [Router.Remove]; [None] when the loop panics. *)
Definition Remove (r : Router) (method p : string) : option Router :=
  match Remove_loop method p (length (routes r)) 0
          {| arr := routes r; len := length (routes r) |} with
  | Some s => Some {| routes := firstn (len s) (arr s); NotFound := NotFound r |}
  | None => None
  end.

(** *** Matching (way.go, route.match)

    [None] is the result [(nil, false)], [Some ctx] is [(ctx, true)]. *)
Fixpoint match_loop (ctx : Ctx) (rsegs : list string) (i : nat)
    (segs : list string) : option Ctx :=
  match rsegs with
  | [] => Some ctx
  | seg :: rest =>
      match nth_error segs i with
      | None => None
      | Some segs_i =>
          if HasPrefix seg ":"
          then match_loop (WithValue ctx (TrimPrefix seg ":") segs_i)
                          rest (S i) segs
          else if HasSuffix seg "..."
                  && HasPrefix segs_i (substring 0 (String.length seg - 3) seg)
          then Some ctx
          else if String.eqb seg segs_i
          then match_loop ctx rest (S i) segs
          else None
      end
  end.

Definition route_match (r : route) (ctx : Ctx) (segs : list string)
  : option Ctx :=
  if Nat.ltb (length (RouteTable.segs r)) (length segs) && negb (prefix r)
  then None
  else match_loop ctx (RouteTable.segs r) 0 segs.

(** *** Dispatch (way.go, Router.ServeHTTP)

    A request is its method, its URL path and its context.  What dispatch
    does is the list of handler calls it makes, each with the context of the
    request it passes. *)

Record Request := {
  Method : string;
  Path : string;
  Context_ : Ctx
}.

Inductive call :=
| ServeRoute (h : Handler) (ctx : Ctx)
| ServeNotFound (h : Handler) (ctx : Ctx).

(** The method test of the scan: the route is skipped when it fails. *)
Definition methodAllowed (r : route) (method : string) : bool :=
  negb (negb (String.eqb (RouteTable.method r) method)
        && negb (String.eqb (RouteTable.method r) "*")).

Fixpoint ServeHTTP_loop (rs : routeList) (notFound : Handler)
    (method : string) (segs : list string) (ctx : Ctx) : list call :=
  match rs with
  | [] => [ServeNotFound notFound ctx]
  | route :: rest =>
      if methodAllowed route method
      then match route_match route ctx segs with
           | Some ctx' => [ServeRoute (handler route) ctx']
           | None => ServeHTTP_loop rest notFound method segs ctx
           end
      else ServeHTTP_loop rest notFound method segs ctx
  end.

Definition ServeHTTP (r : Router) (req : Request) : list call :=
  let method := ToLower (Method req) in
  let segs := pathSegments (Path req) in
  ServeHTTP_loop (routes r) (NotFound r) method segs (Context_ req).

End RouteTable.

Arguments pattern {Handler} r.
Arguments method {Handler} r.
Arguments segs {Handler} r.
Arguments handler {Handler} r.
Arguments prefix {Handler} r.
Arguments routes {Handler} r.
Arguments NotFound {Handler} r.
Arguments NewRouter {Handler} notFoundHandler.
Arguments routeLess {Handler} a b.
Arguments Less {Handler} s i j.
Arguments Count {Handler} r.
Arguments newRoute {Handler} method pattern handler.
Arguments Handle {Handler} {_} r method pattern handler.
Arguments arr {Handler} s.
Arguments len {Handler} s.
Arguments removeIndex {Handler} s index.
Arguments Remove_loop {Handler} method p n index s.
Arguments Remove {Handler} r method p.
Arguments route_match {Handler} r ctx segs.
Arguments ServeRoute {Handler} h ctx.
Arguments ServeNotFound {Handler} h ctx.
Arguments methodAllowed {Handler} r method.
Arguments ServeHTTP_loop {Handler} rs notFound method segs ctx.
Arguments ServeHTTP {Handler} r req.


(** ** Vocabulary of the properties *)

(** A series of registrations [(method, pattern, handler)], in order. *)
Definition HandleAll `{SortAlgorithm} {Handler : Type} (r : Router Handler)
    (regs : list (string * string * Handler)) : Router Handler :=
  fold_left (fun r reg => Handle r (fst (fst reg)) (snd (fst reg)) (snd reg))
            regs r.

(** The key test of [Router.Remove]. *)
Definition keyMatches {Handler : Type} (m p : string) (v : route Handler)
  : bool :=
  String.eqb (pattern v) p && EqualFold (method v) m.

(** The entries of a slice. *)
Definition visible {Handler : Type} (s : slice Handler) : list (route Handler) :=
  firstn (len s) (arr s).

(** [dropsKey m p l l']: the table [l'] is [l] without some of its entries
    of key [(m, p)], the others in their order. *)
Inductive dropsKey {Handler : Type} (m p : string)
  : list (route Handler) -> list (route Handler) -> Prop :=
| dropsKey_nil : dropsKey m p [] []
| dropsKey_keep x l l' :
    dropsKey m p l l' -> dropsKey m p (x :: l) (x :: l')
| dropsKey_drop x l l' :
    keyMatches m p x = true -> dropsKey m p l l' -> dropsKey m p (x :: l) l'.

(** The three kinds of pattern the comparator tells apart. *)
Definition rootParam (p : string) : bool := HasPrefix (ToLower p) "/:".
Definition hasParam (p : string) : bool := Contains (ToLower p) ":".

(** The last step of [Less]: the lower-cased patterns, then the patterns. *)
Definition foldedLess (si sj : string) : bool :=
  if String.eqb (ToLower si) (ToLower sj)
  then String.ltb si sj
  else String.ltb (ToLower si) (ToLower sj).

(** The kinds of segment [route.match] tells apart. *)
Definition isParam (seg : string) : bool := HasPrefix seg ":".

Definition isPrefixLiteral (seg : string) : bool :=
  negb (isParam seg) && HasSuffix seg "...".

Definition stem (seg : string) : string :=
  substring 0 (String.length seg - 3) seg.

(** A pattern segment does not reject a request segment. *)
Definition segMatches (seg reqSeg : string) : bool :=
  isParam seg
  || (HasSuffix seg "..." && HasPrefix reqSeg (stem seg))
  || String.eqb seg reqSeg.

(** The parameters a pattern binds on a request, in the order of the pattern,
    up to the segment that accepts the route. *)
Fixpoint boundParams (psegs reqSegs : list string) : list (string * string) :=
  match psegs, reqSegs with
  | seg :: psegs', v :: reqSegs' =>
      if isParam seg then (TrimPrefix seg ":", v) :: boundParams psegs' reqSegs'
      else if HasSuffix seg "..." && HasPrefix v (stem seg) then []
      else boundParams psegs' reqSegs'
  | _, _ => []
  end.

(** The route is tried and accepts the request. *)
Definition accepts {Handler : Type} (rt : route Handler) (m : string)
    (ctx : Ctx) (reqSegs : list string) : bool :=
  methodAllowed rt m
  && match route_match rt ctx reqSegs with Some _ => true | None => false end.

(** The patterns of the ordering test (way_test.go, TestAway). *)
Definition eightPatterns : list string :=
  ["/:slug"; "/"; "/cool"; "/cool/balloon"; "/cool/:slug"; "/cool/another";
   "/rss/:ok"; "/rss.xml"].

(** The sentences about matching without parameters, as the specification
    words them: equal segment sequences, or a prefix route that the request
    extends. *)
Definition equalOrExtends {Handler : Type} (rt : route Handler)
    (reqSegs : list string) : Prop :=
  reqSegs = segs rt
  \/ (prefix rt = true /\ exists extra, reqSegs = segs rt ++ extra).

(** Routers and requests used as concrete inputs; a handler is its label. *)
Definition emptyRouter : Router string := NewRouter "not found".

Definition request (m path : string) : Request :=
  {| Method := m; Path := path; Context_ := [] |}.

(** ** Further vocabulary *)

(** [strings.Join(elems, sep)], the inverse of [Split]. *)
Fixpoint Join (elems : list string) (sep : string) : string :=
  match elems with
  | [] => EmptyString
  | e :: rest =>
      match rest with
      | [] => e
      | _ :: _ => String.append e (String.append sep (Join rest sep))
      end
  end.

(** The kind of a pattern, as the comparator ranks it: no ":" at all, a ":"
    somewhere, a root-level parameter. *)
Definition patternKind (p : string) : nat :=
  if rootParam p then 2 else if hasParam p then 1 else 0.

(** The names of the parameter segments of a pattern. *)
Definition paramNames (psegs : list string) : list string :=
  map (fun seg => TrimPrefix seg ":") (filter isParam psegs).

(** [Router.Remove] as a scan of the table: an entry with the key is deleted
    when the scan visits it, and the entry after a deleted one is kept
    without being visited. *)
Fixpoint skipScan {Handler : Type} (m p : string) (l : list (route Handler))
  : list (route Handler) :=
  match l with
  | [] => []
  | x :: l' =>
      if keyMatches m p x
      then match l' with
           | [] => []
           | y :: l'' => y :: skipScan m p l''
           end
      else x :: skipScan m p l'
  end.

(** The same scan with the visits it makes past the end of the shrunk
    slice: [stale] is what those visits read, and one of them finding the
    key is a panic. *)
Fixpoint removeScan {Handler : Type} (m p : string)
    (cur stale : list (route Handler)) : option (list (route Handler)) :=
  match cur with
  | [] => if existsb (keyMatches m p) stale then None else Some []
  | x :: cur' =>
      if keyMatches m p x
      then match cur' with
           | [] => if existsb (keyMatches m p) stale then None else Some []
           | y :: cur'' =>
               option_map (cons y)
                          (removeScan m p cur'' (last cur' x :: stale))
           end
      else option_map (cons x) (removeScan m p cur' stale)
  end.

(** The last entry of the table has the key. *)
Definition lastHasKey {Handler : Type} (m p : string)
    (l : list (route Handler)) : bool :=
  existsb (keyMatches m p) (skipn (length l - 1) l).

(** No entry with the key stands right after another one. *)
Fixpoint noAdjacentKeys {Handler : Type} (m p : string)
    (l : list (route Handler)) : bool :=
  match l with
  | x :: (y :: _) as l' =>
      negb (keyMatches m p x && keyMatches m p y) && noAdjacentKeys m p l'
  | _ => true
  end.

(** *** The rest of [sort.Interface] (way.go, routeList.Len and Swap) *)

(** [s[i] = x] on a slice; out of range is handled by the caller. *)
Fixpoint setAt {A : Type} (l : list A) (i : nat) (x : A) : list A :=
  match l, i with
  | [], _ => []
  | _ :: t, 0 => x :: t
  | a :: t, S i' => a :: setAt t i' x
  end.

Definition Len {Handler : Type} (s : routeList Handler) : nat := length s.

(** [s[i], s[j] = s[j], s[i]]: both entries are read, then [s[i]] and
    [s[j]] are written; an index out of range panics. *)
Definition Swap {Handler : Type} (s : routeList Handler) (i j : nat)
  : option (routeList Handler) :=
  match nth_error s i, nth_error s j with
  | Some si, Some sj => Some (setAt (setAt s i sj) j si)
  | _, _ => None
  end.

(** *** The router package (router.go and method.go)

    [paramconvert.BraceToColon] and the body of [ambhandler.Handler] are not
    among the sources: the first is a parameter, the second is the struct
    [Mux.handle] builds, with its two fields.  A handler of the table is
    either such a struct or a plain [http.Handler], the not-found handler. *)

Section MuxModel.

Variables HandlerFunc CustomServeHTTP HttpHandler : Type.
Variable BraceToColon : string -> string.

Inductive muxHandler :=
| ambhandler_Handler (fn : HandlerFunc) (csh : option CustomServeHTTP)
| http_Handler (h : HttpHandler).

Record Mux := {
  router : Router muxHandler;
  customServeHTTP : option CustomServeHTTP
}.

(** [New]; the argument stands for [http.NotFoundHandler()]. *)
Definition Mux_New (notFoundHandler : HttpHandler) : Mux :=
  {| router := NewRouter (http_Handler notFoundHandler);
     customServeHTTP := None |}.

Definition Mux_SetServeHTTP (m : Mux) (csh : option CustomServeHTTP) : Mux :=
  {| router := router m; customServeHTTP := csh |}.

Definition Mux_SetNotFound (m : Mux) (notFound : HttpHandler) : Mux :=
  {| router := {| routes := routes (router m);
                  NotFound := http_Handler notFound |};
     customServeHTTP := customServeHTTP m |}.

(** [Mux.Clear]; [None] when [Router.Remove] panics. *)
Definition Mux_Clear (m : Mux) (method path : string) : option Mux :=
  match Remove (router m) method (BraceToColon path) with
  | Some r => Some {| router := r; customServeHTTP := customServeHTTP m |}
  | None => None
  end.

Definition Mux_Count (m : Mux) : nat := Count (router m).

Definition Mux_ServeHTTP (m : Mux) (req : Request) : list (call muxHandler) :=
  ServeHTTP (router m) req.

Definition Mux_Param (req : Request) (param : string) : string :=
  Param (Context_ req) param.

(** [Mux.handle] (method.go) *)
Definition Mux_handle `{SortAlgorithm} (m : Mux) (method path : string)
    (fn : HandlerFunc) : Mux :=
  {| router := Handle (router m) method (BraceToColon path)
                      (ambhandler_Handler fn (customServeHTTP m));
     customServeHTTP := customServeHTTP m |}.

Definition Mux_Delete `{SortAlgorithm} (m : Mux) (path : string)
    (fn : HandlerFunc) : Mux := Mux_handle m "DELETE" path fn.

Definition Mux_Get `{SortAlgorithm} (m : Mux) (path : string)
    (fn : HandlerFunc) : Mux := Mux_handle m "GET" path fn.

Definition Mux_Handle `{SortAlgorithm} (m : Mux) (method path : string)
    (fn : HandlerFunc) : Mux := Mux_handle m method path fn.

Definition Mux_Head `{SortAlgorithm} (m : Mux) (path : string)
    (fn : HandlerFunc) : Mux := Mux_handle m "HEAD" path fn.

Definition Mux_Options `{SortAlgorithm} (m : Mux) (path : string)
    (fn : HandlerFunc) : Mux := Mux_handle m "OPTIONS" path fn.

Definition Mux_Patch `{SortAlgorithm} (m : Mux) (path : string)
    (fn : HandlerFunc) : Mux := Mux_handle m "PATCH" path fn.

Definition Mux_Post `{SortAlgorithm} (m : Mux) (path : string)
    (fn : HandlerFunc) : Mux := Mux_handle m "POST" path fn.

Definition Mux_Put `{SortAlgorithm} (m : Mux) (path : string)
    (fn : HandlerFunc) : Mux := Mux_handle m "PUT" path fn.

End MuxModel.

Arguments ambhandler_Handler {HandlerFunc CustomServeHTTP HttpHandler} fn csh.
Arguments http_Handler {HandlerFunc CustomServeHTTP HttpHandler} h.
Arguments router {HandlerFunc CustomServeHTTP HttpHandler} m.
Arguments customServeHTTP {HandlerFunc CustomServeHTTP HttpHandler} m.
Arguments Mux_New {HandlerFunc CustomServeHTTP HttpHandler} notFoundHandler.
Arguments Mux_SetServeHTTP {HandlerFunc CustomServeHTTP HttpHandler} m csh.
Arguments Mux_SetNotFound {HandlerFunc CustomServeHTTP HttpHandler} m notFound.
Arguments Mux_Clear {HandlerFunc CustomServeHTTP HttpHandler} BraceToColon m method path.
Arguments Mux_Count {HandlerFunc CustomServeHTTP HttpHandler} m.
Arguments Mux_ServeHTTP {HandlerFunc CustomServeHTTP HttpHandler} m req.
Arguments Mux_handle {HandlerFunc CustomServeHTTP HttpHandler} BraceToColon {_} m method path fn.
Arguments Mux_Delete {HandlerFunc CustomServeHTTP HttpHandler} BraceToColon {_} m path fn.
Arguments Mux_Get {HandlerFunc CustomServeHTTP HttpHandler} BraceToColon {_} m path fn.
Arguments Mux_Handle {HandlerFunc CustomServeHTTP HttpHandler} BraceToColon {_} m method path fn.
Arguments Mux_Head {HandlerFunc CustomServeHTTP HttpHandler} BraceToColon {_} m path fn.
Arguments Mux_Options {HandlerFunc CustomServeHTTP HttpHandler} BraceToColon {_} m path fn.
Arguments Mux_Patch {HandlerFunc CustomServeHTTP HttpHandler} BraceToColon {_} m path fn.
Arguments Mux_Post {HandlerFunc CustomServeHTTP HttpHandler} BraceToColon {_} m path fn.
Arguments Mux_Put {HandlerFunc CustomServeHTTP HttpHandler} BraceToColon {_} m path fn.

(** No two of the patterns are root-level parameters. *)
Definition oneRootParam (patterns : list string) : Prop :=
  ForallOrdPairs (fun p q => rootParam p && rootParam q = false) patterns.

(** * Properties *)

(** ** The model on the cases of way_test.go *)

Example ToLower_GET : ToLower "GET /Cool" = "get /cool".
Proof. reflexivity. Qed.

Example Trim_slashes : Trim "//a/b/" "/" = "a/b".
Proof. reflexivity. Qed.

Example Split_three : Split "a//b" "/" = ["a"; ""; "b"].
Proof. reflexivity. Qed.

Example pathSegments_root : pathSegments "/" = [""].
Proof. reflexivity. Qed.

Example test_prefix_slash :
  ServeHTTP (Handle emptyRouter "GET" "/prefix/" "h")
            (request "GET" "/prefix/anything/else")
  = [ServeRoute "h" []].
Proof. reflexivity. Qed.

Example test_not_prefix :
  ServeHTTP (Handle emptyRouter "GET" "/not-prefix" "h")
            (request "GET" "/not-prefix/anything/else")
  = [ServeNotFound "not found" []].
Proof. reflexivity. Qed.

Example test_prefixdots :
  ServeHTTP (Handle emptyRouter "GET" "/prefixdots..." "h")
            (request "GET" "/prefixdots/anything/else")
  = [ServeRoute "h" []].
Proof. reflexivity. Qed.

Example test_path_params_prefix :
  ServeHTTP
    (Handle emptyRouter "GET" "/path-params-prefix/:era/:group/:member/" "h")
    (request "GET" "/path-params-prefix/60s/beatles/lennon/yoko")
  = [ServeRoute "h" [("member", "lennon"); ("group", "beatles"); ("era", "60s")]].
Proof. reflexivity. Qed.

Example test_not_enough :
  ServeHTTP (Handle emptyRouter "GET" "/not/enough/items" "h")
            (request "GET" "/not/enough")
  = [ServeNotFound "not found" []].
Proof. reflexivity. Qed.

Example test_path_params :
  ServeHTTP
    (Handle emptyRouter "GET" "/path-params/:era/:group/:member" "h")
    (request "GET" "/path-params/60s/beatles/lennon")
  = [ServeRoute "h" [("member", "lennon"); ("group", "beatles"); ("era", "60s")]].
Proof. reflexivity. Qed.

Example test_slashes :
  ServeHTTP (Handle emptyRouter "GET" "slashes/three/" "h")
            (request "GET" "/slashes/three")
  = [ServeRoute "h" []].
Proof. reflexivity. Qed.

Example test_multiple_routes_different_methods :
  let r := HandleAll emptyRouter
             [("GET", "/route", "GET /route");
              ("DELETE", "/route", "DELETE /route");
              ("POST", "/route", "POST /route")] in
  ServeHTTP r (request "GET" "/route") = [ServeRoute "GET /route" []]
  /\ ServeHTTP r (request "DELETE" "/route") = [ServeRoute "DELETE /route" []]
  /\ ServeHTTP r (request "POST" "/route") = [ServeRoute "POST /route" []].
Proof. repeat split; reflexivity. Qed.

Example test_away_order :
  map pattern
      (routes (HandleAll emptyRouter
                 (map (fun p => ("GET", p, p))
                      ["/:slug"; "/"; "/cool/balloon"; "/cool/:slug";
                       "/cool/another"; "/rss/:ok"; "/cool"; "/rss.xml"])))
  = ["/"; "/cool"; "/cool/another"; "/cool/balloon"; "/rss.xml";
     "/cool/:slug"; "/rss/:ok"; "/:slug"].
Proof. reflexivity. Qed.

Example test_clear :
  let r := Handle emptyRouter "GET" "/user" "h" in
  ServeHTTP r (request "GET" "/user") = [ServeRoute "h" []]
  /\ option_map (fun r' => ServeHTTP r' (request "GET" "/user"))
                (Remove r "GET" "/user")
     = Some [ServeNotFound "not found" []].
Proof. split; reflexivity. Qed.

Example test_method_mismatch :
  ServeHTTP (Handle emptyRouter "DELETE" "/method2" "h")
            (request "GET" "/method2")
  = [ServeNotFound "not found" []].
Proof. reflexivity. Qed.

(** ** The insertion sort obeys the contract of [sort.Sort] *)

Section InsertionSort.

Context {A : Type} (less : A -> A -> bool).

Lemma bubble_Permutation (x : A) (placed : list A) :
  Permutation (bubble less x placed) (x :: placed).
Proof.
  induction placed as [|y ys IH]; simpl.
  - apply Permutation_refl.
  - destruct (less x y).
    + rewrite IH. apply perm_swap.
    + apply Permutation_refl.
Qed.

Lemma insertionLoop_Permutation (rest placed : list A) :
  Permutation (insertionLoop less placed rest) (placed ++ rest).
Proof.
  revert placed.
  induction rest as [|x rest IH]; intros placed; simpl.
  - rewrite app_nil_r. symmetry. apply Permutation_rev.
  - rewrite IH, bubble_Permutation. simpl.
    apply Permutation_middle.
Qed.

Lemma asymPair_sym (a b : A) : asymPair less a b -> asymPair less b a.
Proof. unfold asymPair. rewrite andb_comm. exact (fun H => H). Qed.

Lemma ForallOrdPairs_Permutation (l l' : list A) :
  Permutation l l' ->
  ForallOrdPairs (asymPair less) l -> ForallOrdPairs (asymPair less) l'.
Proof.
  induction 1 as [|x l l' Hp IH|x y l|l l' l'' _ IH1 _ IH2]; intros Hl.
  - exact Hl.
  - inversion Hl; subst. constructor.
    + eapply Permutation_Forall; eassumption.
    + apply IH. assumption.
  - inversion Hl as [|? ? Hy Hxl]; subst.
    inversion Hxl as [|? ? Hx Hl']; subst.
    inversion Hy as [|? ? Hyx Hyl]; subst.
    constructor.
    + constructor; [apply asymPair_sym; exact Hyx | exact Hx].
    + constructor; assumption.
  - apply IH2, IH1, Hl.
Qed.

Lemma ForallOrdPairs_slots (R : A -> A -> Prop) (l : list A) :
  (forall i j a b, i <> j -> nth_error l i = Some a ->
                   nth_error l j = Some b -> R a b) ->
  ForallOrdPairs R l.
Proof.
  induction l as [|x l IH]; intros H; constructor.
  - apply Forall_forall. intros b Hb.
    apply In_nth_error in Hb. destruct Hb as [j Hj].
    apply (H 0 (S j)); [discriminate | reflexivity | exact Hj].
  - apply IH. intros i j a b Hij Ha Hb.
    apply (H (S i) (S j)); [congruence | exact Ha | exact Hb].
Qed.

Lemma bubble_placedOrder (x : A) (placed : list A) :
  Forall (asymPair less x) placed ->
  placedOrder less placed -> placedOrder less (bubble less x placed).
Proof.
  unfold placedOrder, asymPair.
  induction placed as [|y ys IH]; intros Hasym Hs; simpl.
  - repeat constructor.
  - inversion Hasym as [|? ? Hy Hys']; subst.
    destruct (less x y) eqn:Hxy.
    + inversion Hs as [|? ? Hys Hhd]; subst.
      simpl in Hy.
      constructor.
      * apply IH; assumption.
      * destruct ys as [|y2 ys']; simpl.
        -- constructor. exact Hy.
        -- destruct (less x y2).
           ++ inversion Hhd; subst. constructor. assumption.
           ++ constructor. exact Hy.
    + constructor; [exact Hs | constructor; exact Hxy].
Qed.

Lemma IsSorted_rev_app (placed acc : list A) :
  placedOrder less placed ->
  IsSorted less acc = true ->
  match placed, acc with
  | y :: _, a :: _ => less a y = false
  | _, _ => True
  end ->
  IsSorted less (rev placed ++ acc) = true.
Proof.
  unfold placedOrder. revert acc.
  induction placed as [|y ys IH]; intros acc Hs Hacc Hjoin; simpl.
  - exact Hacc.
  - rewrite <- app_assoc. simpl.
    inversion Hs as [|? ? Hys Hhd]; subst.
    apply IH.
    + exact Hys.
    + destruct acc as [|a acc']; [reflexivity|].
      simpl in *. rewrite Hjoin. simpl. exact Hacc.
    + destruct ys as [|y2 ys']; [exact I|].
      inversion Hhd; subst. assumption.
Qed.

Lemma insertionLoop_IsSorted (rest placed : list A) :
  ForallOrdPairs (asymPair less) (placed ++ rest) ->
  placedOrder less placed ->
  IsSorted less (insertionLoop less placed rest) = true.
Proof.
  revert placed.
  induction rest as [|x rest IH]; intros placed Hasym Hs; simpl.
  - rewrite <- (app_nil_r (rev placed)).
    apply IsSorted_rev_app; [exact Hs | reflexivity | destruct placed; exact I].
  - assert (Hx : ForallOrdPairs (asymPair less) (x :: placed ++ rest)).
    { eapply ForallOrdPairs_Permutation; [|exact Hasym].
      symmetry. apply Permutation_middle. }
    inversion Hx as [|? ? Hxall Hrest]; subst.
    apply IH.
    + eapply ForallOrdPairs_Permutation; [|exact Hx].
      change (x :: placed ++ rest) with ((x :: placed) ++ rest).
      apply Permutation_app_tail. symmetry. apply bubble_Permutation.
    + apply bubble_placedOrder; [|exact Hs].
      apply Forall_app in Hxall. apply Hxall.
Qed.

End InsertionSort.

#[export] Instance insertionSort_contract : SortContract.
Proof.
  split.
  - intros A less l. apply (insertionLoop_Permutation less l []).
  - intros A less l [Hasym _ _].
    apply insertionLoop_IsSorted; [|constructor].
    apply ForallOrdPairs_slots.
    intros i j a b Hij Ha Hb. unfold asymPair.
    destruct (less a b) eqn:Hab; [|reflexivity].
    simpl. eapply Hasym; eassumption.
Qed.

(** ** Removal *)

Section RemoveFacts.

Context {Handler : Type} (m p : string).

Implicit Types (s : slice Handler) (v : route Handler).

Lemma Remove_loop_no_match n : forall index s,
  index + n <= length (arr s) ->
  (forall j v, index <= j < index + n ->
     nth_error (arr s) j = Some v -> keyMatches m p v = false) ->
  Remove_loop m p n index s = Some s.
Proof.
  induction n as [|n IH]; intros index s Hlen Hno; simpl.
  - reflexivity.
  - destruct (nth_error (arr s) index) as [v|] eqn:Hv.
    + pose proof (Hno index v ltac:(lia) Hv) as Hk.
      unfold keyMatches in Hk. rewrite Hk.
      apply IH; [lia|].
      intros j w Hj. apply Hno. lia.
    + apply nth_error_None in Hv. lia.
Qed.

Lemma Remove_loop_add n1 n2 : forall index s,
  Remove_loop m p (n1 + n2) index s
  = match Remove_loop m p n1 index s with
    | Some s' => Remove_loop m p n2 (index + n1) s'
    | None => None
    end.
Proof.
  induction n1 as [|n1 IH]; intros index s; simpl.
  - rewrite Nat.add_0_r. reflexivity.
  - destruct (nth_error (arr s) index) as [v|]; [|reflexivity].
    replace (index + S n1) with (S index + n1) by lia.
    destruct (_ && _).
    + destruct (removeIndex s index) as [s'|]; [apply IH | reflexivity].
    + apply IH.
Qed.

(** Nothing to remove: the table is left as it is. *)
Lemma Remove_absent (r : Router Handler) :
  (forall v, In v (routes r) -> keyMatches m p v = false) ->
  Remove r m p = Some r.
Proof.
  intros Hno. unfold Remove.
  rewrite Remove_loop_no_match; simpl.
  - rewrite firstn_all. destruct r; reflexivity.
  - lia.
  - intros j v _ Hv. apply Hno. eapply nth_error_In; eassumption.
Qed.

(** One entry to remove: it is removed and the others keep their order. *)
Lemma Remove_single (r : Router Handler) pre v post :
  routes r = pre ++ v :: post ->
  keyMatches m p v = true ->
  (forall w, In w (pre ++ post) -> keyMatches m p w = false) ->
  Remove r m p = Some {| routes := pre ++ post; NotFound := NotFound r |}.
Proof.
  intros Hr Hv Hno. unfold Remove. rewrite Hr.
  rewrite length_app. simpl length.
  rewrite Remove_loop_add.
  rewrite Remove_loop_no_match; simpl arr; simpl len.
  2:{ rewrite length_app. simpl. lia. }
  2:{ intros j w Hj Hw. apply Hno. apply in_or_app. left.
      rewrite nth_error_app1 in Hw by lia.
      eapply nth_error_In; eassumption. }
  simpl Remove_loop.
  rewrite nth_error_app2 by lia. rewrite Nat.sub_diag. simpl nth_error.
  cbv iota. unfold keyMatches in Hv. rewrite Hv.
  unfold removeIndex. simpl arr. simpl len.
  replace (length pre + 1 <=? length pre + S (length post)) with true
    by (symmetry; apply Nat.leb_le; lia).
  replace (length pre + S (length post) - (length pre + 1))
    with (length post) by lia.
  replace (length pre + S (length post) - 1)
    with (length pre + length post) by lia.
  rewrite firstn_app, firstn_all, Nat.sub_diag. simpl firstn at 1.
  rewrite app_nil_r.
  rewrite skipn_app.
  replace (length pre + 1 - length pre) with 1 by lia.
  rewrite (skipn_all2 pre) by lia. simpl skipn at 1. simpl app at 1.
  rewrite firstn_all.
  rewrite (skipn_app (length pre + length post)).
  rewrite (skipn_all2 pre) by lia. simpl app at 2.
  replace (length pre + length post - length pre) with (length post) by lia.
  rewrite Remove_loop_no_match; simpl arr; simpl len.
  - f_equal. f_equal.
    rewrite app_assoc.
    rewrite firstn_app.
    replace (length pre + length post - length (pre ++ post)) with 0
      by (rewrite length_app; lia).
    rewrite firstn_all2 by (rewrite length_app; lia).
    simpl. apply app_nil_r.
  - rewrite !length_app, length_skipn. simpl length. lia.
  - intros j w Hj Hw.
    destruct post as [|x post'].
    + simpl in Hj. lia.
    + apply Hno.
      rewrite nth_error_app2 in Hw by lia.
      apply nth_error_In in Hw.
      apply in_or_app. right.
      apply in_app_or in Hw. destruct Hw as [Hw|Hw]; [exact Hw|].
      simpl length in Hw. rewrite skipn_cons in Hw.
      rewrite <- (firstn_skipn (length post') (x :: post')).
      apply in_or_app. right. exact Hw.
Qed.

End RemoveFacts.

(** C1 (what the code does on adjacent duplicates).  With [GET /a] registered
    twice and [GET /b] once, two entries have the key [(GET, /a)];
    [Remove "GET" "/a"] deletes the first of them and steps over the second,
    which has moved into the place just visited: one [GET /a] entry stays in
    the table and the count decreases by one, not by two. *)
Theorem Remove_skips_adjacent_duplicate :
  let r := HandleAll emptyRouter
             [("GET", "/a", "h1"); ("GET", "/a", "h2"); ("GET", "/b", "h3")] in
  map handler (routes r) = ["h1"; "h2"; "h3"]
  /\ length (filter (keyMatches "GET" "/a") (routes r)) = 2
  /\ option_map (fun r' => map handler (routes r')) (Remove r "GET" "/a")
     = Some ["h2"; "h3"]
  /\ option_map Count (Remove r "GET" "/a") = Some (Count r - 1).
Proof. repeat split; reflexivity. Qed.

(** When the last entry of the table has the key and an earlier one has it
    too, the loop reads the stale last place after the slice has shrunk and
    [removeIndex] slices out of range: [Remove] panics. *)
Lemma Remove_panics_on_two_duplicates :
  Remove (HandleAll emptyRouter [("GET", "/a", "h1"); ("GET", "/a", "h2")])
         "GET" "/a"
  = None.
Proof. reflexivity. Qed.

(** ** The precedence comparator *)

(** *** Go's [<] on strings is a strict total order *)

Lemma Ascii_compare_refl (a : ascii) : Ascii.compare a a = Eq.
Proof. unfold Ascii.compare. apply N.compare_refl. Qed.

Lemma Ascii_compare_trans (a b c : ascii) :
  Ascii.compare a b = Lt -> Ascii.compare b c = Lt -> Ascii.compare a c = Lt.
Proof.
  unfold Ascii.compare. rewrite !N.compare_lt_iff. apply N.lt_trans.
Qed.

Lemma String_compare_refl (s : string) : String.compare s s = Eq.
Proof.
  induction s as [|a s IH]; simpl; [reflexivity|].
  rewrite Ascii_compare_refl. exact IH.
Qed.

Lemma String_compare_trans (s1 : string) : forall s2 s3,
  String.compare s1 s2 = Lt -> String.compare s2 s3 = Lt ->
  String.compare s1 s3 = Lt.
Proof.
  induction s1 as [|a s1 IH]; intros [|b s2] [|c s3]; simpl;
    try discriminate; try reflexivity.
  destruct (Ascii.compare a b) eqn:Hab; try discriminate;
    destruct (Ascii.compare b c) eqn:Hbc; try discriminate; intros H12 H23.
  - apply Ascii.compare_eq_iff in Hab, Hbc. subst.
    rewrite Ascii_compare_refl. eapply IH; eassumption.
  - apply Ascii.compare_eq_iff in Hab. subst. rewrite Hbc. reflexivity.
  - apply Ascii.compare_eq_iff in Hbc. subst. rewrite Hab. reflexivity.
  - rewrite (Ascii_compare_trans _ _ _ Hab Hbc). reflexivity.
Qed.

Lemma ltb_irrefl (s : string) : String.ltb s s = false.
Proof. unfold String.ltb. rewrite String_compare_refl. reflexivity. Qed.

Lemma ltb_asym (s t : string) : String.ltb s t = true -> String.ltb t s = false.
Proof.
  unfold String.ltb. rewrite (String.compare_antisym s t).
  destruct (String.compare t s); simpl; congruence.
Qed.

Lemma ltb_trans (s t u : string) :
  String.ltb s t = true -> String.ltb t u = true -> String.ltb s u = true.
Proof.
  unfold String.ltb.
  destruct (String.compare s t) eqn:Hst; try discriminate.
  destruct (String.compare t u) eqn:Htu; try discriminate.
  rewrite (String_compare_trans _ _ _ Hst Htu). reflexivity.
Qed.

Lemma ltb_total (s t : string) :
  s <> t -> String.ltb s t = true \/ String.ltb t s = true.
Proof.
  intros Hne. unfold String.ltb. rewrite (String.compare_antisym s t).
  destruct (String.compare t s) eqn:Hts; simpl; auto.
  apply String.compare_eq_iff in Hts. congruence.
Qed.

(** *** The last step of [Less] is a strict total order *)

Lemma foldedLess_irrefl (a : string) : foldedLess a a = false.
Proof. unfold foldedLess. rewrite String.eqb_refl. apply ltb_irrefl. Qed.

Lemma foldedLess_asym (a b : string) :
  foldedLess a b = true -> foldedLess b a = false.
Proof.
  unfold foldedLess. rewrite (String.eqb_sym (ToLower b)).
  destruct (String.eqb (ToLower a) (ToLower b)); apply ltb_asym.
Qed.

Lemma foldedLess_trans (a b c : string) :
  foldedLess a b = true -> foldedLess b c = true -> foldedLess a c = true.
Proof.
  unfold foldedLess.
  remember (ToLower a) as la. remember (ToLower b) as lb.
  remember (ToLower c) as lc.
  destruct (String.eqb_spec la lb) as [Hab|Hab];
  destruct (String.eqb_spec lb lc) as [Hbc|Hbc];
  destruct (String.eqb_spec la lc) as [Hac|Hac];
  intros H1 H2; try congruence.
  - eapply ltb_trans; eassumption.
  - rewrite <- Hac in H2. apply ltb_asym in H1. congruence.
  - eapply ltb_trans; eassumption.
Qed.

Lemma foldedLess_total (a b : string) :
  a <> b -> foldedLess a b = true \/ foldedLess b a = true.
Proof.
  intros Hne. unfold foldedLess. rewrite (String.eqb_sym (ToLower b)).
  destruct (String.eqb_spec (ToLower a) (ToLower b)) as [Hab|Hab];
    apply ltb_total; assumption.
Qed.

(** *** [Less] by the kind of the two patterns *)

Lemma lessPattern_kinds (a b : string) :
  lessPattern a b
  = if rootParam b then true
    else if rootParam a then false
    else if hasParam b && negb (hasParam a) then true
    else if negb (hasParam b) && hasParam a then false
    else foldedLess a b.
Proof. reflexivity. Qed.

(** Whatever comes first, a pattern sorts before a root-level parameter. *)
Lemma lessPattern_rootParam (a b : string) :
  rootParam b = true -> lessPattern a b = true.
Proof. intros Hb. rewrite lessPattern_kinds, Hb. reflexivity. Qed.

(** Two patterns that are not both root-level parameters are never each
    before the other. *)
Lemma lessPattern_asym (a b : string) :
  rootParam a && rootParam b = false ->
  lessPattern a b = true -> lessPattern b a = false.
Proof.
  rewrite !lessPattern_kinds.
  pose proof (foldedLess_asym a b).
  destruct (rootParam a), (rootParam b), (hasParam a), (hasParam b);
    simpl; auto; discriminate.
Qed.

Lemma lessPattern_trans (a b c : string) :
  lessPattern a b = true -> lessPattern b c = true -> lessPattern a c = true.
Proof.
  rewrite !lessPattern_kinds.
  pose proof (foldedLess_trans a b c).
  destruct (rootParam a), (rootParam b), (rootParam c),
    (hasParam a), (hasParam b), (hasParam c);
    simpl; auto; discriminate.
Qed.

Lemma lessPattern_total (a b : string) :
  a <> b -> lessPattern a b = true \/ lessPattern b a = true.
Proof.
  intros Hne. rewrite !lessPattern_kinds.
  pose proof (foldedLess_total a b Hne).
  destruct (rootParam a), (rootParam b), (hasParam a), (hasParam b);
    simpl; auto.
Qed.

Lemma lessPattern_negtrans (a b c : string) :
  lessPattern a b = false -> lessPattern b c = false ->
  lessPattern a c = false.
Proof.
  intros Hab Hbc.
  destruct (lessPattern a c) eqn:Hac; [exfalso|reflexivity].
  destruct (String.eqb_spec a b) as [->|Hne1]; [congruence|].
  destruct (String.eqb_spec b c) as [->|Hne2]; [congruence|].
  destruct (lessPattern_total a b Hne1) as [H|Hba]; [congruence|].
  destruct (lessPattern_total b c Hne2) as [H|Hcb]; [congruence|].
  pose proof (lessPattern_trans _ _ _ Hac Hcb) as Hab'.
  congruence.
Qed.

(** C2 (what the code does on two root-level parameters).  [Less] answers
    [true] as soon as the second pattern begins with "/:", without looking at
    the first: the distinct patterns "/:a" and "/:b" each sort before the
    other, and "/:a" sorts before itself. *)
Theorem lessPattern_root_params_both_ways :
  "/:a" <> "/:b"
  /\ lessPattern "/:a" "/:b" = true
  /\ lessPattern "/:b" "/:a" = true
  /\ lessPattern "/:a" "/:a" = true.
Proof. repeat split; try reflexivity. discriminate. Qed.

(** ** The order of the table *)

Section TableOrder.

Context {Handler : Type}.

Implicit Types (l t : list (route Handler)) (a b x : route Handler).

(** A root-level parameter that is not the last entry has an entry after it
    that sorts before it: such a table is not sorted. *)
Lemma IsSorted_rootParam_not_last l1 a b l2 :
  rootParam (pattern a) = true ->
  IsSorted routeLess (l1 ++ a :: b :: l2) = false.
Proof.
  intros Ha. induction l1 as [|x l1 IH].
  - simpl. unfold routeLess at 1.
    rewrite (lessPattern_rootParam _ _ Ha). reflexivity.
  - change ((x :: l1) ++ a :: b :: l2) with (x :: (l1 ++ a :: b :: l2)).
    destruct (l1 ++ a :: b :: l2) eqn:E.
    + destruct l1; discriminate.
    + simpl. simpl in IH. rewrite IH. apply andb_false_r.
Qed.

Lemma IsSorted_Sorted l :
  IsSorted routeLess l = true ->
  Sorted (fun a b => routeLess b a = false) l.
Proof.
  induction l as [|a [|b l'] IH]; intros H.
  - constructor.
  - repeat constructor.
  - simpl in H. apply andb_true_iff in H. destruct H as [Hba Hl].
    constructor; [apply IH; exact Hl|].
    constructor. apply negb_true_iff. exact Hba.
Qed.

Lemma IsSorted_StronglySorted l :
  IsSorted routeLess l = true ->
  StronglySorted (fun a b => routeLess b a = false) l.
Proof.
  intros H. apply Sorted_StronglySorted; [|apply IsSorted_Sorted; exact H].
  intros a b c Hab Hbc. unfold routeLess in *.
  eapply lessPattern_negtrans; eassumption.
Qed.

Lemma StronglySorted_last (R : route Handler -> route Handler -> Prop) l z :
  StronglySorted R (l ++ [z]) -> Forall (fun x => R x z) l.
Proof.
  induction l as [|a l IH]; intros H; [constructor|].
  simpl in H. inversion H as [|? ? Hl Ha]; subst.
  constructor.
  - rewrite Forall_app in Ha. destruct Ha as [_ Ha].
    inversion Ha; assumption.
  - apply IH. exact Hl.
Qed.

(** The comparator obeys the contract of [sort.Sort] on a table in which no
    two entries are root-level parameters. *)
Lemma routeLess_LessContract l :
  ForallOrdPairs
    (fun a b => rootParam (pattern a) && rootParam (pattern b) = false) l ->
  LessContract (@routeLess Handler) l.
Proof.
  intros Hroot. split.
  - intros i j a b Hij Ha Hb. unfold routeLess.
    apply lessPattern_asym.
    revert i j Hij Ha Hb.
    induction Hroot as [|x l Hx Hl IH]; intros i j Hij Ha Hb.
    + destruct i; discriminate.
    + rewrite Forall_forall in Hx.
      destruct i as [|i], j as [|j]; simpl in Ha, Hb.
      * congruence.
      * injection Ha as <-. apply Hx. eapply nth_error_In; eassumption.
      * injection Hb as <-. rewrite andb_comm.
        apply Hx. eapply nth_error_In; eassumption.
      * apply (IH i j); congruence.
  - intros i j k a b c _ _ _ _ _ _. apply lessPattern_trans.
  - intros i j k a b c _ _ _ _ _ _. apply lessPattern_negtrans.
Qed.

Context {sorter : SortAlgorithm} {contract : SortContract}.

Lemma Handle_Permutation (r : Router Handler) m p h :
  Permutation (routes (Handle r m p h)) (routes r ++ [newRoute m p h]).
Proof. apply sort_Sort_Permutation. Qed.

Lemma HandleAll_snoc (r : Router Handler) regs reg :
  HandleAll r (regs ++ [reg])
  = Handle (HandleAll r regs) (fst (fst reg)) (snd (fst reg)) (snd reg).
Proof. unfold HandleAll. rewrite fold_left_app. reflexivity. Qed.

Lemma HandleAll_Permutation regs : forall (r : Router Handler),
  Permutation (routes (HandleAll r regs))
    (routes r
     ++ map (fun reg => newRoute (fst (fst reg)) (snd (fst reg)) (snd reg))
            regs).
Proof.
  induction regs as [|reg regs IH]; intros r; simpl.
  - rewrite app_nil_r. apply Permutation_refl.
  - unfold HandleAll in *. simpl. rewrite IH.
    rewrite (Handle_Permutation r). rewrite <- app_assoc. reflexivity.
Qed.

(** After a registration the table is sorted, provided no two of its
    entries are root-level parameters. *)
Lemma Handle_IsSorted (r : Router Handler) m p h :
  ForallOrdPairs
    (fun a b => rootParam (pattern a) && rootParam (pattern b) = false)
    (routes r ++ [newRoute m p h]) ->
  IsSorted routeLess (routes (Handle r m p h)) = true.
Proof.
  intros Hroot. unfold Handle. simpl.
  apply sort_Sort_IsSorted. apply routeLess_LessContract. exact Hroot.
Qed.

End TableOrder.

(** *** Removal and the order of the table *)

Section RemoveOrder.

Context {Handler : Type} (m p : string).

Implicit Types (s : slice Handler) (v : route Handler)
  (l : list (route Handler)).

Lemma removeIndex_visible s index s' :
  len s <= length (arr s) ->
  removeIndex s index = Some s' ->
  length (arr s') = length (arr s)
  /\ len s' <= length (arr s')
  /\ visible s' = firstn index (visible s) ++ skipn (index + 1) (visible s).
Proof.
  unfold removeIndex, visible. intros Hlen.
  destruct (Nat.leb_spec (index + 1) (len s)) as [Hi|Hi]; [|discriminate].
  intros E. injection E as <-. simpl.
  assert (Hl : length (firstn index (arr s)
                ++ firstn (len s - (index + 1)) (skipn (index + 1) (arr s))
                ++ skipn (len s - 1) (arr s)) = length (arr s)).
  { rewrite !length_app, !length_firstn, !length_skipn. lia. }
  split; [exact Hl|]. split; [lia|].
  rewrite firstn_firstn. replace (Nat.min index (len s)) with index by lia.
  rewrite firstn_app.
  rewrite length_firstn. replace (Nat.min index (length (arr s))) with index by lia.
  rewrite (firstn_all2 (n := len s - 1) (firstn index (arr s)))
    by (rewrite length_firstn; lia).
  f_equal.
  rewrite firstn_app.
  rewrite length_firstn, length_skipn.
  replace (len s - 1 - index
           - Nat.min (len s - (index + 1)) (length (arr s) - (index + 1)))
    with 0 by lia.
  rewrite firstn_0, app_nil_r.
  rewrite firstn_firstn.
  replace (Nat.min (len s - 1 - index) (len s - (index + 1)))
    with (len s - (index + 1)) by lia.
  rewrite skipn_firstn_comm. reflexivity.
Qed.

Lemma dropsKey_refl l : dropsKey m p l l.
Proof. induction l; constructor; assumption. Qed.

Lemma dropsKey_trans l1 l2 l3 :
  dropsKey m p l1 l2 -> dropsKey m p l2 l3 -> dropsKey m p l1 l3.
Proof.
  intros H12. revert l3.
  induction H12 as [|x l l' _ IH|x l l' Hx _ IH]; intros l3 H23.
  - exact H23.
  - inversion H23; subst.
    + apply dropsKey_keep. apply IH. assumption.
    + apply dropsKey_drop; [assumption|]. apply IH. assumption.
  - apply dropsKey_drop; [exact Hx|]. apply IH. exact H23.
Qed.

Lemma dropsKey_at l : forall index v,
  nth_error l index = Some v -> keyMatches m p v = true ->
  dropsKey m p l (firstn index l ++ skipn (index + 1) l).
Proof.
  induction l as [|x l IH]; intros [|index] v Hv Hk; try discriminate.
  - simpl in Hv. injection Hv as ->. simpl.
    apply dropsKey_drop; [exact Hk | apply dropsKey_refl].
  - simpl. apply dropsKey_keep. eapply IH; eassumption.
Qed.

Lemma Remove_loop_dropsKey n : forall index s s',
  len s <= length (arr s) ->
  Remove_loop m p n index s = Some s' ->
  dropsKey m p (visible s) (visible s').
Proof.
  induction n as [|n IH]; intros index s s' Hlen; simpl.
  - intros E. injection E as <-. apply dropsKey_refl.
  - destruct (nth_error (arr s) index) as [v|] eqn:Hv; [|discriminate].
    destruct (_ && _) eqn:Hk.
    + destruct (removeIndex s index) as [s1|] eqn:Hrm; [|discriminate].
      intros Hloop.
      destruct (removeIndex_visible s index s1 Hlen Hrm) as [Ha [Hl Hvis]].
      eapply dropsKey_trans; [|eapply IH; eassumption].
      rewrite Hvis. apply (dropsKey_at _ index v); [|exact Hk].
      unfold visible. rewrite nth_error_firstn.
      unfold removeIndex in Hrm.
      destruct (Nat.leb_spec (index + 1) (len s)); [|discriminate].
      replace (index <? len s) with true
        by (symmetry; apply Nat.ltb_lt; lia).
      exact Hv.
    + apply IH. exact Hlen.
Qed.

(** When [Remove] returns, the table has lost only entries with the key, and
    the entries left are in the order they had. *)
Lemma Remove_dropsKey (r r' : Router Handler) :
  Remove r m p = Some r' -> dropsKey m p (routes r) (routes r').
Proof.
  unfold Remove.
  destruct (Remove_loop _ _ _ _ _) as [s|] eqn:Hloop; [|discriminate].
  intros E. injection E as <-. simpl.
  apply Remove_loop_dropsKey in Hloop; [|simpl; lia].
  unfold visible in Hloop at 1. simpl in Hloop.
  rewrite firstn_all in Hloop. exact Hloop.
Qed.

Lemma dropsKey_other_keys l l' :
  dropsKey m p l l' ->
  filter (fun v => negb (keyMatches m p v)) l'
  = filter (fun v => negb (keyMatches m p v)) l.
Proof.
  induction 1 as [|x l l' _ IH|x l l' Hx _ IH]; simpl.
  - reflexivity.
  - rewrite IH. reflexivity.
  - rewrite Hx. simpl. exact IH.
Qed.

Lemma dropsKey_StronglySorted (R : route Handler -> route Handler -> Prop)
    l l' :
  dropsKey m p l l' -> StronglySorted R l -> StronglySorted R l'.
Proof.
  induction 1 as [|x l l' Hd IH|x l l' _ _ IH]; intros Hs.
  - constructor.
  - inversion Hs as [|? ? Hl Hx]; subst. constructor; [apply IH; exact Hl|].
    rewrite Forall_forall in *. intros y Hy. apply Hx.
    clear - Hd Hy. induction Hd; simpl in *; intuition.
  - inversion Hs; subst. apply IH. assumption.
Qed.

Lemma Sorted_IsSorted l :
  Sorted (fun a b => routeLess b a = false) l -> IsSorted routeLess l = true.
Proof.
  induction 1 as [|a l Hl IH Hhd]; [reflexivity|].
  destruct l as [|b l']; [reflexivity|].
  simpl. inversion Hhd; subst.
  apply andb_true_iff. split; [apply negb_true_iff; assumption | exact IH].
Qed.

(** X25.  A removal that returns keeps a sorted table sorted. *)
Lemma Remove_IsSorted (r r' : Router Handler) :
  IsSorted routeLess (routes r) = true ->
  Remove r m p = Some r' ->
  IsSorted routeLess (routes r') = true.
Proof.
  intros Hs Hr.
  apply Sorted_IsSorted, StronglySorted_Sorted.
  eapply dropsKey_StronglySorted; [apply Remove_dropsKey; exact Hr|].
  apply IsSorted_StronglySorted. exact Hs.
Qed.

End RemoveOrder.

(** C5 (what the code does with two root-level parameters).  After
    registering [GET /:a] and [GET /:b] the table is not in the order of the
    comparator: its second entry sorts before its first.  No arrangement of
    the two entries is in order, since each sorts before the other. *)
Theorem Handle_two_root_params_not_sorted :
  let r := HandleAll emptyRouter [("GET", "/:a", "h1"); ("GET", "/:b", "h2")] in
  map pattern (routes r) = ["/:b"; "/:a"]
  /\ Less (routes r) 1 0 = Some true
  /\ IsSorted routeLess (routes r) = false
  /\ forall t, Permutation (routes r) t -> IsSorted routeLess t = false.
Proof.
  repeat split; try reflexivity.
  intros t Ht. cbv in Ht.
  apply Permutation_length_2_inv in Ht.
  destruct Ht as [-> | ->]; reflexivity.
Qed.

(** ** The ordering test of way_test.go *)

Lemma eightPatterns_NoDup : NoDup eightPatterns.
Proof.
  unfold eightPatterns.
  repeat (constructor; [simpl; intuition discriminate|]).
  constructor.
Qed.

Lemma eightPatterns_root_first (p : string) :
  In p eightPatterns -> p <> "/" -> lessPattern "/" p = true.
Proof.
  unfold eightPatterns. simpl.
  intros H Hne.
  repeat (destruct H as [<-|H]; [try reflexivity; congruence|]).
  contradiction.
Qed.

Lemma eightPatterns_one_rootParam (p q : string) :
  In p eightPatterns -> In q eightPatterns -> p <> q ->
  rootParam p && rootParam q = false.
Proof.
  unfold eightPatterns. simpl.
  intros Hp Hq Hne.
  repeat (destruct Hp as [<-|Hp]; [|]);
    try contradiction;
    repeat (destruct Hq as [<-|Hq]; [try reflexivity; congruence|]);
    contradiction.
Qed.

Section EightRoutes.

Context {sorter : SortAlgorithm} {contract : SortContract} {Handler : Type}.

Lemma eight_routes_one_rootParam (l : list (route Handler)) :
  NoDup (map pattern l) ->
  (forall x, In x l -> In (pattern x) eightPatterns) ->
  ForallOrdPairs
    (fun a b => rootParam (pattern a) && rootParam (pattern b) = false) l.
Proof.
  induction l as [|a l IH]; intros Hnd Hin; constructor.
  - simpl in Hnd. inversion Hnd as [|? ? Hnotin _]; subst.
    apply Forall_forall. intros b Hb.
    apply eightPatterns_one_rootParam.
    + apply Hin. left; reflexivity.
    + apply Hin. right; exact Hb.
    + intros E. apply Hnotin. rewrite E. apply in_map. exact Hb.
  - simpl in Hnd. inversion Hnd; subst.
    apply IH; [assumption|]. intros x Hx. apply Hin. right; exact Hx.
Qed.

(** C6.  Whatever the order in which the eight routes of the test are
    registered (and whatever their methods and handlers), the first entry of
    the table has pattern "/" and the last one has pattern "/:slug". *)
Theorem eight_routes_first_and_last (notFound : Handler)
    (regs : list (string * string * Handler)) :
  Permutation (map (fun reg => snd (fst reg)) regs) eightPatterns ->
  let t := routes (HandleAll (NewRouter notFound) regs) in
  option_map pattern (nth_error t 0) = Some "/"
  /\ option_map pattern (nth_error t (length t - 1)) = Some "/:slug".
Proof.
  intros Hperm t.
  (* the table holds the eight patterns *)
  assert (Hpat : Permutation (map pattern t) eightPatterns).
  { unfold t. rewrite (HandleAll_Permutation regs). simpl.
    rewrite map_map. simpl. exact Hperm. }
  (* the last registration sorted it *)
  assert (Hsorted : IsSorted routeLess t = true).
  { destruct (exists_last (l := regs)) as [regs' [reg Hregs]].
    { intros ->. apply Permutation_nil in Hperm. discriminate. }
    unfold t. rewrite Hregs, HandleAll_snoc.
    apply Handle_IsSorted.
    assert (Hp0 : Permutation
              (map pattern (routes (HandleAll (NewRouter notFound) regs')
                            ++ [newRoute (fst (fst reg)) (snd (fst reg))
                                         (snd reg)]))
              eightPatterns).
    { rewrite <- Hperm, Hregs.
      rewrite (HandleAll_Permutation regs'). simpl.
      rewrite !map_app, map_map. simpl. reflexivity. }
    apply eight_routes_one_rootParam.
    - eapply Permutation_NoDup; [symmetry; exact Hp0|].
      apply eightPatterns_NoDup.
    - intros x Hx. eapply Permutation_in; [exact Hp0|].
      apply in_map. exact Hx. }
  apply IsSorted_StronglySorted in Hsorted.
  assert (Hin : forall x, In x t -> In (pattern x) eightPatterns).
  { intros x Hx. eapply Permutation_in; [exact Hpat|]. apply in_map, Hx. }
  assert (Hhas : forall p, In p eightPatterns ->
                           exists x, In x t /\ pattern x = p).
  { intros p Hp.
    apply (Permutation_in _ (Permutation_sym Hpat)) in Hp.
    apply in_map_iff in Hp. destruct Hp as [x [Hx Hxt]]. eauto. }
  clearbody t. split.
  - destruct t as [|h tl].
    { apply Permutation_nil in Hpat. discriminate. }
    simpl. f_equal.
    destruct (string_dec (pattern h) "/") as [E|Hne]; [exact E|exfalso].
    destruct (Hhas "/" ltac:(right; left; reflexivity))
      as [x [[<-|Hx] Hpx]]; [congruence|].
    inversion Hsorted as [|? ? _ Hall]; subst.
    rewrite Forall_forall in Hall. specialize (Hall x Hx).
    unfold routeLess in Hall. rewrite Hpx in Hall.
    rewrite eightPatterns_root_first in Hall;
      [discriminate | apply Hin; left; reflexivity | exact Hne].
  - destruct (exists_last (l := t)) as [l [z Ht]].
    { intros ->. apply Permutation_nil in Hpat. discriminate. }
    subst t. rewrite length_app. simpl length.
    rewrite nth_error_app2 by lia.
    replace (length l + 1 - 1 - length l) with 0 by lia.
    simpl. f_equal.
    destruct (string_dec (pattern z) "/:slug") as [E|Hne]; [exact E|exfalso].
    destruct (Hhas "/:slug" ltac:(left; reflexivity)) as [x [Hx Hpx]].
    apply in_app_or in Hx. destruct Hx as [Hx|[<-|[]]]; [|congruence].
    apply StronglySorted_last in Hsorted.
    rewrite Forall_forall in Hsorted. specialize (Hsorted x Hx).
    unfold routeLess in Hsorted. rewrite Hpx in Hsorted.
    rewrite lessPattern_rootParam in Hsorted; [discriminate|reflexivity].
Qed.

End EightRoutes.

Lemma eight_routes_first_and_last_witness :
  Permutation
    (map (fun reg => snd (fst reg))
         (map (fun p => ("GET", p, p)) eightPatterns))
    eightPatterns
  /\ let t := routes (HandleAll emptyRouter
                        (map (fun p => ("GET", p, p)) eightPatterns)) in
     option_map pattern (nth_error t 0) = Some "/"
     /\ option_map pattern (nth_error t (length t - 1)) = Some "/:slug".
Proof.
  split.
  - apply Permutation_refl.
  - apply (eight_routes_first_and_last (contract := insertionSort_contract)).
    apply Permutation_refl.
Defined.

(** ** Matching *)

Section Matching.

Context {Handler : Type}.

Implicit Types (rt : route Handler) (ctx : Ctx).

(** The walk only looks at the request segments from its index on. *)
Lemma match_loop_skipn rsegs : forall ctx i reqSegs,
  match_loop ctx rsegs i reqSegs = match_loop ctx rsegs 0 (skipn i reqSegs).
Proof.
  induction rsegs as [|seg rest IH]; intros ctx i reqSegs; cbn [match_loop].
  - reflexivity.
  - rewrite (nth_error_skipn i reqSegs 0), Nat.add_0_r.
    destruct (nth_error reqSegs i) as [v|]; [|reflexivity].
    rewrite (IH _ (S i) reqSegs), (IH _ 1 (skipn i reqSegs)).
    rewrite (IH ctx (S i) reqSegs), (IH ctx 1 (skipn i reqSegs)).
    rewrite skipn_skipn. reflexivity.
Qed.

Lemma match_loop_nil_request ctx seg rest :
  match_loop ctx (seg :: rest) 0 [] = None.
Proof. reflexivity. Qed.

Lemma match_loop_cons ctx seg rest v reqSegs :
  match_loop ctx (seg :: rest) 0 (v :: reqSegs)
  = if isParam seg
    then match_loop (WithValue ctx (TrimPrefix seg ":") v) rest 0 reqSegs
    else if HasSuffix seg "..." && HasPrefix v (stem seg) then Some ctx
    else if String.eqb seg v then match_loop ctx rest 0 reqSegs
    else None.
Proof.
  simpl. rewrite !(match_loop_skipn rest _ 1). reflexivity.
Qed.

(** The segments of a pattern, taken as a request, pass the walk. *)
Lemma match_loop_self rsegs : forall ctx,
  match_loop ctx rsegs 0 rsegs <> None.
Proof.
  induction rsegs as [|seg rest IH]; intros ctx; [discriminate|].
  rewrite match_loop_cons.
  destruct (isParam seg); [apply IH|].
  destruct (_ && _); [discriminate|].
  rewrite String.eqb_refl. apply IH.
Qed.

(** Whether a route accepts a request does not depend on the context. *)
Lemma match_loop_accepts_any_ctx rsegs : forall reqSegs ctx ctx',
  match_loop ctx rsegs 0 reqSegs <> None ->
  match_loop ctx' rsegs 0 reqSegs <> None.
Proof.
  induction rsegs as [|seg rest IH]; intros [|v reqSegs] ctx ctx';
    try (simpl; congruence).
  rewrite !match_loop_cons.
  destruct (isParam seg); [apply IH|].
  destruct (_ && _); [congruence|].
  destruct (String.eqb seg v); [apply IH | congruence].
Qed.

(** The context of an accepted request: the bound parameters, the last one
    first, on top of the context of the request. *)
Lemma match_loop_boundParams rsegs : forall reqSegs ctx ctx',
  match_loop ctx rsegs 0 reqSegs = Some ctx' ->
  ctx' = rev (boundParams rsegs reqSegs) ++ ctx.
Proof.
  induction rsegs as [|seg rest IH]; intros [|v reqSegs] ctx ctx';
    try (simpl; congruence).
  rewrite match_loop_cons. simpl boundParams.
  destruct (isParam seg).
  - intros Hm. apply IH in Hm. subst ctx'.
    simpl. rewrite <- app_assoc. reflexivity.
  - destruct (_ && _); [simpl; congruence|].
    destruct (String.eqb seg v); [apply IH | congruence].
Qed.

Lemma route_match_boundParams rt ctx reqSegs ctx' :
  route_match rt ctx reqSegs = Some ctx' ->
  ctx' = rev (boundParams (segs rt) reqSegs) ++ ctx.
Proof.
  unfold route_match. destruct (_ && _); [discriminate|].
  apply match_loop_boundParams.
Qed.

(** A prefix literal accepts the walk where it stands. *)
Lemma match_loop_prefix_literal pre rpre :
  Forall2 (fun seg v => segMatches seg v = true) pre rpre ->
  forall ctx lit post v rpost,
  isPrefixLiteral lit = true ->
  HasPrefix v (stem lit) = true ->
  match_loop ctx (pre ++ lit :: post) 0 (rpre ++ v :: rpost) <> None.
Proof.
  induction 1 as [|seg w pre rpre Hseg _ IH];
    intros ctx lit post v rpost Hlit Hstem; simpl app;
    rewrite match_loop_cons.
  - unfold isPrefixLiteral in Hlit. apply andb_true_iff in Hlit.
    destruct Hlit as [Hnp Hdots]. apply negb_true_iff in Hnp.
    rewrite Hnp, Hdots, Hstem. discriminate.
  - unfold segMatches in Hseg.
    destruct (isParam seg); [apply IH; assumption|].
    destruct (_ && _); [discriminate|].
    simpl in Hseg. rewrite Hseg. apply IH; assumption.
Qed.

(** C3, amended.  When a pattern segment is a prefix literal, the request
    segment at its position starts with its stem and the earlier segments
    match, the route matches whatever pattern segments and request segments
    follow, provided the request passes the length test made before the
    walk: it has no more segments than the pattern, or the route is a prefix
    route (its pattern ends with "/" or "...").  It matches in no other
    case: every request with more segments than the pattern of a route that
    is not a prefix route is rejected by that test, whatever the segments
    are, a prefix literal in the middle of the pattern included. *)
Theorem prefix_literal_matches rt ctx pre lit post rpre v rpost :
  segs rt = pre ++ lit :: post ->
  isPrefixLiteral lit = true ->
  Forall2 (fun seg w => segMatches seg w = true) pre rpre ->
  HasPrefix v (stem lit) = true ->
  ((exists ctx', route_match rt ctx (rpre ++ v :: rpost) = Some ctx')
   <-> length (rpre ++ v :: rpost) <= length (segs rt) \/ prefix rt = true)
  /\ (forall (rt' : route Handler) ctx0 reqSegs,
        prefix rt' = false ->
        length (segs rt') < length reqSegs ->
        route_match rt' ctx0 reqSegs = None).
Proof.
  intros Hsegs Hlit Hpre Hstem.
  assert (Hreject : forall (rt' : route Handler) ctx0 reqSegs,
             prefix rt' = false ->
             length (segs rt') < length reqSegs ->
             route_match rt' ctx0 reqSegs = None).
  { intros rt' ctx0 reqSegs Hp Hlen. unfold route_match.
    rewrite Hp. apply Nat.ltb_lt in Hlen. rewrite Hlen. reflexivity. }
  split; [|exact Hreject]. split.
  - intros [ctx' Hm].
    destruct (prefix rt) eqn:Hp; [right; reflexivity|]. left.
    destruct (Nat.le_gt_cases (length (rpre ++ v :: rpost)) (length (segs rt)))
      as [Hle|Hgt]; [exact Hle|].
    rewrite (Hreject rt ctx _ Hp Hgt) in Hm. discriminate.
  - intros Hgate.
    pose proof (match_loop_prefix_literal pre rpre Hpre ctx lit post v rpost
                  Hlit Hstem) as Hloop.
    unfold route_match.
    replace (_ && _) with false.
    + rewrite Hsegs.
      destruct (match_loop ctx (pre ++ lit :: post) 0 (rpre ++ v :: rpost));
        [eauto | congruence].
    + symmetry. destruct Hgate as [Hle | ->]; [|apply andb_false_r].
      apply andb_false_iff. left. apply Nat.ltb_ge. exact Hle.
Qed.

End Matching.

Lemma prefix_literal_matches_witness :
  (exists ctx',
      route_match (newRoute "GET" "/files/:user/img.../meta" "h") []
                  (["files"; "ann"] ++ "img2024" :: [])
      = Some ctx')
  /\ route_match (newRoute "GET" "/files/:user/img.../meta" "h") []
                 (["files"; "ann"] ++ "img2024" :: ["a"; "b"])
     = None.
Proof.
  pose proof (prefix_literal_matches
                (newRoute "GET" "/files/:user/img.../meta" "h") []
                ["files"; ":user"] "img..." ["meta"] ["files"; "ann"]
                "img2024" []
                ltac:(reflexivity) ltac:(reflexivity)
                ltac:(repeat constructor) ltac:(reflexivity))
    as [Hiff Hreject].
  split.
  - apply Hiff. left. simpl. lia.
  - apply Hreject; [reflexivity | simpl; lia].
Defined.

(** C3 as stated fails when the prefix literal is not the last segment and
    the request is longer than the pattern: "/a.../b" is not a prefix route,
    so the request "/ab/c/d" is rejected by the length test although its
    first segment starts with the stem "a". *)
Lemma prefix_literal_in_the_middle_rejected :
  let rt := newRoute "GET" "/a.../b" "h" in
  segs rt = [] ++ "a..." :: ["b"]
  /\ isPrefixLiteral "a..." = true
  /\ pathSegments "/ab/c/d" = [] ++ "ab" :: ["c"; "d"]
  /\ HasPrefix "ab" (stem "a...") = true
  /\ route_match rt [] (pathSegments "/ab/c/d") = None
  /\ ServeHTTP (Handle emptyRouter "GET" "/a.../b" "h")
               (request "GET" "/ab/c/d")
     = [ServeNotFound "not found" []].
Proof. repeat split; reflexivity. Qed.

(** ** Patterns without parameters *)

Section LiteralPatterns.

Context {Handler : Type}.

Implicit Types (rt : route Handler) (ctx : Ctx).

(** A walk over literal segments accepts exactly the requests that begin
    with those segments. *)
Lemma match_loop_literals rsegs : forall ctx reqSegs,
  (forall seg, In seg rsegs -> isParam seg = false) ->
  (forall seg, In seg rsegs -> HasSuffix seg "..." = false) ->
  (match_loop ctx rsegs 0 reqSegs <> None
   <-> exists extra, reqSegs = rsegs ++ extra).
Proof.
  induction rsegs as [|seg rest IH]; intros ctx reqSegs Hnp Hnd.
  - simpl. split; [eauto | discriminate].
  - destruct reqSegs as [|v reqSegs].
    + rewrite match_loop_nil_request.
      split; [congruence | intros [extra E]; discriminate].
    + rewrite match_loop_cons.
      rewrite (Hnp seg (or_introl eq_refl)), (Hnd seg (or_introl eq_refl)).
      simpl andb. cbv iota.
      destruct (String.eqb_spec seg v) as [<-|Hne].
      * rewrite IH by (intros; (apply Hnp || apply Hnd); right; assumption).
        split; intros [extra E]; exists extra.
        -- simpl. rewrite E. reflexivity.
        -- simpl in E. injection E as E. exact E.
      * split; [congruence|]. intros [extra E]. simpl in E. congruence.
Qed.

(** C4, amended.  For a pattern with no parameter segment and no segment
    ending in "...", a request matches exactly when its segments are those
    of the pattern, or the route is a prefix route and the request extends
    the pattern's segments; a route that is not a prefix route matches no
    request with fewer segments and no request with more segments. *)
Theorem literal_pattern_matches rt ctx reqSegs :
  (forall seg, In seg (segs rt) -> isParam seg = false) ->
  (forall seg, In seg (segs rt) -> HasSuffix seg "..." = false) ->
  (route_match rt ctx reqSegs <> None <-> equalOrExtends rt reqSegs)
  /\ (prefix rt = false -> length reqSegs < length (segs rt) ->
      route_match rt ctx reqSegs = None)
  /\ (prefix rt = false -> length (segs rt) < length reqSegs ->
      route_match rt ctx reqSegs = None).
Proof.
  intros Hnp Hnd.
  assert (Hiff : route_match rt ctx reqSegs <> None
                 <-> equalOrExtends rt reqSegs).
  { unfold route_match, equalOrExtends.
    pose proof (match_loop_literals (segs rt) ctx reqSegs Hnp Hnd) as Hloop.
    destruct (Nat.ltb_spec (length (segs rt)) (length reqSegs)) as [Hlt|Hge];
      destruct (prefix rt); simpl.
    - rewrite Hloop. split.
      + intros [extra E]. right. eauto.
      + intros [E | [_ [extra E]]]; [exists []; rewrite app_nil_r|]; eauto.
    - split; [congruence|].
      intros [E | [E _]]; [rewrite E in Hlt; lia | discriminate].
    - rewrite Hloop. split.
      + intros [extra E]. right. eauto.
      + intros [E | [_ [extra E]]]; [exists []; rewrite app_nil_r|]; eauto.
    - rewrite Hloop. split.
      + intros [extra E]. left.
        rewrite E, length_app in Hge.
        destruct extra; [rewrite app_nil_r in E; exact E | simpl in Hge; lia].
      + intros [E | [E _]]; [exists []; rewrite app_nil_r; exact E|].
        discriminate. }
  split; [exact Hiff|].
  split; intros Hpre Hlen;
    destruct (route_match rt ctx reqSegs) eqn:Hm; try reflexivity;
    exfalso;
    (assert (Hsome : Some c <> None) by discriminate);
    apply Hiff in Hsome;
    destruct Hsome as [E | [E _]]; try congruence;
    rewrite E in Hlen; lia.
Qed.

End LiteralPatterns.

Lemma literal_pattern_matches_witness :
  let rt := newRoute "GET" "/prefix/" "h" in
  (route_match rt [] (pathSegments "/prefix/anything/else") <> None
   <-> equalOrExtends rt (pathSegments "/prefix/anything/else"))
  /\ (prefix rt = false ->
      length (pathSegments "/prefix/anything/else") < length (segs rt) ->
      route_match rt [] (pathSegments "/prefix/anything/else") = None)
  /\ (prefix rt = false ->
      length (segs rt) < length (pathSegments "/prefix/anything/else") ->
      route_match rt [] (pathSegments "/prefix/anything/else") = None).
Proof.
  apply (literal_pattern_matches (newRoute "GET" "/prefix/" "h") []
           (pathSegments "/prefix/anything/else")).
  - simpl. intros seg [<-|[]]. reflexivity.
  - simpl. intros seg [<-|[]]. reflexivity.
Defined.

(** C4 as stated fails on a pattern with a prefix literal: "/prefixdots..."
    has no parameter segment and matches the request "/prefixdots" (a case
    of way_test.go), whose only segment is not the pattern's and does not
    extend it; and "/a.../b", which is not a prefix route, matches the
    shorter request "/ab". *)
Lemma prefix_literal_breaks_literal_matching :
  (let rt := newRoute "GET" "/prefixdots..." "h" in
   (forall seg, In seg (segs rt) -> isParam seg = false)
   /\ route_match rt [] (pathSegments "/prefixdots") = Some []
   /\ ~ equalOrExtends rt (pathSegments "/prefixdots"))
  /\ (let rt := newRoute "GET" "/a.../b" "h" in
      (forall seg, In seg (segs rt) -> isParam seg = false)
      /\ prefix rt = false
      /\ length (pathSegments "/ab") < length (segs rt)
      /\ route_match rt [] (pathSegments "/ab") = Some []).
Proof.
  split; simpl.
  - split; [intros seg [<-|[]]; reflexivity|].
    split; [reflexivity|].
    intros [E | [_ [extra E]]]; discriminate.
  - split; [intros seg [<-|[<-|[]]]; reflexivity|].
    split; [reflexivity|]. split; [|reflexivity].
    cbv. lia.
Qed.

(** ** Dispatch *)

Section Dispatch.

Context {Handler : Type}.

Implicit Types (r : Router Handler) (rt : route Handler) (ctx : Ctx)
  (rs pre post : list (route Handler)) (notFound : Handler).

(** The scan stops at the first route that is tried and accepts. *)
Lemma ServeHTTP_loop_first pre rt post notFound m reqSegs ctx ctx' :
  (forall x, In x pre -> accepts x m ctx reqSegs = false) ->
  methodAllowed rt m = true ->
  route_match rt ctx reqSegs = Some ctx' ->
  ServeHTTP_loop (pre ++ rt :: post) notFound m reqSegs ctx
  = [ServeRoute (handler rt) ctx'].
Proof.
  intros Hpre Hm Hrt.
  induction pre as [|x pre IH]; simpl.
  - rewrite Hm, Hrt. reflexivity.
  - pose proof (Hpre x (or_introl eq_refl)) as Hx. unfold accepts in Hx.
    destruct (methodAllowed x m); simpl in Hx.
    + destruct (route_match x ctx reqSegs); [discriminate|].
      apply IH. intros y Hy. apply Hpre. right; exact Hy.
    + apply IH. intros y Hy. apply Hpre. right; exact Hy.
Qed.

(** With no such route the scan ends at the fallback. *)
Lemma ServeHTTP_loop_none rs notFound m reqSegs ctx :
  (forall x, In x rs -> accepts x m ctx reqSegs = false) ->
  ServeHTTP_loop rs notFound m reqSegs ctx = [ServeNotFound notFound ctx].
Proof.
  induction rs as [|x rs IH]; intros Hno; simpl.
  - reflexivity.
  - pose proof (Hno x (or_introl eq_refl)) as Hx. unfold accepts in Hx.
    destruct (methodAllowed x m); simpl in Hx.
    + destruct (route_match x ctx reqSegs); [discriminate|].
      apply IH. intros y Hy. apply Hno. right; exact Hy.
    + apply IH. intros y Hy. apply Hno. right; exact Hy.
Qed.

(** The table splits at the first accepting route, if there is one. *)
Lemma first_accepting rs m reqSegs ctx :
  (exists pre rt post ctx',
      rs = pre ++ rt :: post
      /\ (forall x, In x pre -> accepts x m ctx reqSegs = false)
      /\ methodAllowed rt m = true
      /\ route_match rt ctx reqSegs = Some ctx')
  \/ (forall x, In x rs -> accepts x m ctx reqSegs = false).
Proof.
  induction rs as [|x rs IH].
  - right. intros x [].
  - destruct (accepts x m ctx reqSegs) eqn:Hx.
    + left. unfold accepts in Hx. apply andb_true_iff in Hx.
      destruct Hx as [Hm Hrt].
      destruct (route_match x ctx reqSegs) as [ctx'|] eqn:E; [|discriminate].
      exists [], x, rs, ctx'. repeat split; auto. intros y [].
    + destruct IH as [[pre [rt [post [ctx' [E [Hpre [Hm Hrt]]]]]]] | Hno].
      * left. exists (x :: pre), rt, post, ctx'. subst rs.
        repeat split; auto. intros y [<-|Hy]; auto.
      * right. intros y [<-|Hy]; auto.
Qed.

(** C7.  A dispatch makes exactly one call.  It is either the handler of the
    first route of the table that allows the method and matches the path,
    called with the context that route's match built, or, when no route of
    the table does, the not-found handler, called with the context of the
    request. *)
Theorem ServeHTTP_exactly_one_call r req :
  let m := ToLower (Method req) in
  let reqSegs := pathSegments (Path req) in
  let ctx := Context_ req in
  exists c,
    ServeHTTP r req = [c]
    /\ match c with
       | ServeRoute h ctx' =>
           exists pre rt post,
             routes r = pre ++ rt :: post
             /\ (forall x, In x pre -> accepts x m ctx reqSegs = false)
             /\ methodAllowed rt m = true
             /\ route_match rt ctx reqSegs = Some ctx'
             /\ h = handler rt
       | ServeNotFound h ctx' =>
           (forall x, In x (routes r) -> accepts x m ctx reqSegs = false)
           /\ h = NotFound r
           /\ ctx' = ctx
       end.
Proof.
  intros m reqSegs ctx. unfold ServeHTTP. fold m reqSegs ctx.
  destruct (first_accepting (routes r) m reqSegs ctx)
    as [[pre [rt [post [ctx' [E [Hpre [Hm Hrt]]]]]]] | Hno].
  - exists (ServeRoute (handler rt) ctx'). split.
    + rewrite E. apply ServeHTTP_loop_first; assumption.
    + exists pre, rt, post. auto.
  - exists (ServeNotFound (NotFound r) ctx). split.
    + apply ServeHTTP_loop_none. exact Hno.
    + auto.
Qed.

(** C10.  The context the chosen handler receives holds the parameters bound
    by the route that won, on top of the context of the request, and nothing
    bound by the routes that were tried before it and failed; the not-found
    handler receives the context of the request. *)
Theorem ServeHTTP_context_of_winner r req :
  let m := ToLower (Method req) in
  let reqSegs := pathSegments (Path req) in
  let ctx := Context_ req in
  (forall pre rt post ctx',
      routes r = pre ++ rt :: post ->
      (forall x, In x pre -> accepts x m ctx reqSegs = false) ->
      methodAllowed rt m = true ->
      route_match rt ctx reqSegs = Some ctx' ->
      ServeHTTP r req
      = [ServeRoute (handler rt)
                    (rev (boundParams (segs rt) reqSegs) ++ ctx)])
  /\ ((forall x, In x (routes r) -> accepts x m ctx reqSegs = false) ->
      ServeHTTP r req = [ServeNotFound (NotFound r) ctx]).
Proof.
  intros m reqSegs ctx. split.
  - intros pre rt post ctx' E Hpre Hm Hrt.
    unfold ServeHTTP. fold m reqSegs ctx. rewrite E.
    rewrite <- (route_match_boundParams rt ctx reqSegs ctx' Hrt).
    apply ServeHTTP_loop_first; assumption.
  - intros Hno. apply ServeHTTP_loop_none. exact Hno.
Qed.

End Dispatch.

Lemma ServeHTTP_context_of_winner_witness :
  let r := HandleAll emptyRouter
             [("GET", "/a/:x/b", "h1"); ("GET", "/a/:y/c", "h2")] in
  map pattern (routes r) = ["/a/:x/b"; "/a/:y/c"]
  /\ ServeHTTP r (request "GET" "/a/1/c") = [ServeRoute "h2" [("y", "1")]]
  /\ Param [("y", "1")] "x" = "".
Proof.
  split; [reflexivity|]. split; [|reflexivity].
  apply (proj1 (ServeHTTP_context_of_winner
                  (HandleAll emptyRouter
                     [("GET", "/a/:x/b", "h1"); ("GET", "/a/:y/c", "h2")])
                  (request "GET" "/a/1/c"))
               [newRoute "GET" "/a/:x/b" "h1"]
               (newRoute "GET" "/a/:y/c" "h2") [] [("y", "1")]).
  - reflexivity.
  - intros x [<-|[]]. reflexivity.
  - reflexivity.
  - reflexivity.
Defined.

(** ** Methods *)

Lemma lowerByte_star (c : ascii) : lowerByte c = "*"%char -> c = "*"%char.
Proof.
  destruct c as [[] [] [] [] [] [] [] []]; vm_compute;
    intros E; try discriminate E; reflexivity.
Qed.

Lemma ToLower_star (m : string) : ToLower m = "*" <-> m = "*".
Proof.
  split; [|intros ->; reflexivity].
  destruct m as [|c [|c' t]]; simpl; try discriminate.
  intros E. injection E as E. apply lowerByte_star in E. subst. reflexivity.
Qed.

Section Methods.

Context {sorter : SortAlgorithm} {contract : SortContract} {Handler : Type}.

Lemma Handle_NewRouter (notFound : Handler) m p h :
  routes (Handle (NewRouter notFound) m p h) = [newRoute m p h].
Proof.
  pose proof (Handle_Permutation (NewRouter notFound) m p h) as Hp.
  simpl in Hp. symmetry in Hp.
  apply Permutation_length_1_inv in Hp. exact Hp.
Qed.

Lemma methodAllowed_star (p : string) (h : Handler) (m : string) :
  methodAllowed (newRoute "*" p h) m = true.
Proof. unfold methodAllowed. simpl method. apply negb_true_iff, andb_false_r. Qed.

Lemma ToLower_star_eqb (m : string) :
  String.eqb (ToLower m) "*" = String.eqb m "*".
Proof.
  destruct (String.eqb_spec (ToLower m) "*") as [E|Hne];
    destruct (String.eqb_spec m "*") as [E'|Hne']; try reflexivity.
  - apply (proj1 (ToLower_star m)) in E. congruence.
  - apply (proj2 (ToLower_star m)) in E'. congruence.
Qed.

(** C8.  Dispatch on a table holding one route registered with method [m]:
    a request with method [m'] goes to the not-found handler whatever its
    path unless [m] and [m'] are equal up to the case of letters or [m] is
    "*", and otherwise the route is tried and the path decides; so a request
    for the pattern itself is served exactly when the methods agree in that
    way.  A route registered with "*" is tried whatever the method of the
    request: [GET], [POST], [PUT] and every other method are dispatched in
    the same way. *)
Theorem method_matching_case_insensitive (notFound : Handler) m m' p h :
  (forall path ctx,
      ServeHTTP (Handle (NewRouter notFound) m p h)
                {| Method := m'; Path := path; Context_ := ctx |}
      = if String.eqb (ToLower m) (ToLower m') || String.eqb m "*"
        then match route_match (newRoute m p h) ctx (pathSegments path) with
             | Some ctx' => [ServeRoute h ctx']
             | None => [ServeNotFound notFound ctx]
             end
        else [ServeNotFound notFound ctx])
  /\ (forall ctx,
        (exists ctx',
            ServeHTTP (Handle (NewRouter notFound) m p h)
                      {| Method := m'; Path := p; Context_ := ctx |}
            = [ServeRoute h ctx'])
        <-> ToLower m = ToLower m' \/ m = "*")
  /\ (forall m1 m2 path ctx,
        ServeHTTP (Handle (NewRouter notFound) "*" p h)
                  {| Method := m1; Path := path; Context_ := ctx |}
        = ServeHTTP (Handle (NewRouter notFound) "*" p h)
                    {| Method := m2; Path := path; Context_ := ctx |})
  /\ (methodAllowed (newRoute m p h) (ToLower m') = true
      <-> ToLower m = ToLower m' \/ m = "*").
Proof.
  assert (Hserve : forall path ctx,
      ServeHTTP (Handle (NewRouter notFound) m p h)
                {| Method := m'; Path := path; Context_ := ctx |}
      = if String.eqb (ToLower m) (ToLower m') || String.eqb m "*"
        then match route_match (newRoute m p h) ctx (pathSegments path) with
             | Some ctx' => [ServeRoute h ctx']
             | None => [ServeNotFound notFound ctx]
             end
        else [ServeNotFound notFound ctx]).
  { intros path ctx. unfold ServeHTTP. rewrite Handle_NewRouter.
    cbn [ServeHTTP_loop Method Path Context_].
    unfold methodAllowed. cbn [method newRoute].
    rewrite negb_andb, !negb_involutive, ToLower_star_eqb.
    reflexivity. }
  split; [exact Hserve|]. split; [|split].
  - intros ctx. rewrite Hserve. split.
    + intros [ctx' Hs].
      destruct (String.eqb_spec (ToLower m) (ToLower m')) as [E|_];
        [left; exact E|].
      destruct (String.eqb_spec m "*") as [E|_]; [right; exact E|].
      discriminate Hs.
    + intros Hm.
      assert (Hb : String.eqb (ToLower m) (ToLower m') || String.eqb m "*"
                   = true).
      { apply orb_true_iff. rewrite !String.eqb_eq. exact Hm. }
      rewrite Hb.
      assert (Hself : route_match (newRoute m p h) ctx (pathSegments p)
                      <> None).
      { unfold route_match. cbn [segs prefix newRoute].
        rewrite Nat.ltb_irrefl. apply match_loop_self. }
      destruct (route_match (newRoute m p h) ctx (pathSegments p))
        as [ctx'|]; [eauto | congruence].
  - intros m1 m2 path ctx. unfold ServeHTTP.
    rewrite Handle_NewRouter. cbn [ServeHTTP_loop].
    rewrite !methodAllowed_star. reflexivity.
  - unfold methodAllowed. simpl.
    rewrite negb_andb, !negb_involutive, orb_true_iff.
    rewrite !String.eqb_eq, ToLower_star. reflexivity.
Qed.

End Methods.

Lemma method_matching_case_insensitive_witness :
  ServeHTTP (Handle emptyRouter "get" "/methodcase" "h")
            (request "GET" "/methodcase")
  = [ServeRoute "h" []]
  /\ ServeHTTP (Handle emptyRouter "GET" "/methodcase" "h")
               (request "get" "/methodcase")
     = [ServeRoute "h" []]
  /\ ServeHTTP (Handle emptyRouter "GET" "/method1" "h")
               (request "POST" "/method1")
     = [ServeNotFound "not found" []]
  /\ ServeHTTP (Handle emptyRouter "*" "/all-methods" "h")
               (request "GET" "/all-methods")
     = ServeHTTP (Handle emptyRouter "*" "/all-methods" "h")
                 (request "PUT" "/all-methods").
Proof.
  split; [|split; [|split]].
  - exact (proj1 (method_matching_case_insensitive
                    (contract := insertionSort_contract)
                    "not found" "get" "GET" "/methodcase" "h")
                 "/methodcase" []).
  - exact (proj1 (method_matching_case_insensitive
                    (contract := insertionSort_contract)
                    "not found" "GET" "get" "/methodcase" "h")
                 "/methodcase" []).
  - exact (proj1 (method_matching_case_insensitive
                    (contract := insertionSort_contract)
                    "not found" "GET" "POST" "/method1" "h")
                 "/method1" []).
  - exact (proj1 (proj2 (proj2 (method_matching_case_insensitive
                    (contract := insertionSort_contract)
                    "not found" "*" "*" "/all-methods" "h")))
                 "GET" "PUT" "/all-methods" []).
Defined.

(** ** Parameters *)

Lemma Value_app_unbound (bound ctx : Ctx) (name : string) :
  ~ In name (map fst bound) -> Value (bound ++ ctx) name = Value ctx name.
Proof.
  induction bound as [|[k v] bound IH]; intros Hnot; simpl.
  - reflexivity.
  - destruct (String.eqb_spec k name) as [->|Hne].
    + exfalso. apply Hnot. left. reflexivity.
    + apply IH. intros Hin. apply Hnot. right. exact Hin.
Qed.

Section Parameters.

Context {sorter : SortAlgorithm} {contract : SortContract} {Handler : Type}.

(** C9, amended.  Dispatching [GET /path-param/123] on a table holding
    [GET /path-param/:id] calls the handler with a context in which [Param]
    gives "123" for "id" and, the request having come with an empty
    context, the empty string for every other name.  For every route and
    request, [Param] gives for a name that the matched route does not bind
    what it gives in the context the request came with: the empty string
    when that context has no value for the name.  [Param] is a total
    function: there is no error to raise. *)
Theorem Param_of_matched_route (notFound h : Handler) :
  (exists ctx,
      ServeHTTP (Handle (NewRouter notFound) "GET" "/path-param/:id" h)
                (request "GET" "/path-param/123")
      = [ServeRoute h ctx]
      /\ Param ctx "id" = "123"
      /\ forall name, name <> "id" -> Param ctx name = "")
  /\ (forall (rt : route Handler) ctx0 reqSegs ctx name,
        route_match rt ctx0 reqSegs = Some ctx ->
        ~ In name (map fst (boundParams (segs rt) reqSegs)) ->
        Param ctx name = Param ctx0 name
        /\ (Value ctx0 name = None -> Param ctx name = "")).
Proof.
  split.
  - exists [("id", "123")]. split; [|split].
    + unfold ServeHTTP. rewrite Handle_NewRouter. reflexivity.
    + reflexivity.
    + intros name Hne. unfold Param. cbn [Value].
      destruct (String.eqb_spec "id" name); [congruence | reflexivity].
  - intros rt ctx0 reqSegs ctx name Hm Hnot.
    apply route_match_boundParams in Hm. subst ctx.
    assert (Hv : Value (rev (boundParams (segs rt) reqSegs) ++ ctx0) name
                 = Value ctx0 name).
    { apply Value_app_unbound. rewrite map_rev, <- in_rev. exact Hnot. }
    unfold Param. rewrite Hv. split; [reflexivity|].
    intros ->. reflexivity.
Qed.

End Parameters.

Lemma Param_of_matched_route_witness :
  (exists ctx,
      ServeHTTP (Handle emptyRouter "GET" "/path-param/:id" "h")
                (request "GET" "/path-param/123")
      = [ServeRoute "h" ctx]
      /\ Param ctx "id" = "123"
      /\ forall name, name <> "id" -> Param ctx name = "")
  /\ (Param [("id", "123"); ("user", "ann")] "user"
      = Param [("user", "ann")] "user"
      /\ (Value [("user", "ann")] "user" = None ->
          Param [("id", "123"); ("user", "ann")] "user" = ""))
  /\ (Param [("id", "123")] "user" = Param [] "user"
      /\ (Value [] "user" = None -> Param [("id", "123")] "user" = "")).
Proof.
  pose proof (Param_of_matched_route
                (contract := insertionSort_contract) "not found" "h")
    as [Hdispatch Hgeneral].
  split; [exact Hdispatch|]. split.
  - apply (Hgeneral (newRoute "GET" "/path-param/:id" "h")
                    [("user", "ann")] (pathSegments "/path-param/123")).
    + reflexivity.
    + simpl. intros [E|[]]. discriminate.
  - apply (Hgeneral (newRoute "GET" "/path-param/:id" "h")
                    [] (pathSegments "/path-param/123")).
    + reflexivity.
    + simpl. intros [E|[]]. discriminate.
Defined.

(** C9 as stated fails for a request that comes with a value for the name
    in its context, as a request has that a handler of one router passes on
    to another router: the route "/path-param/:id" does not bind "user",
    and [Param] gives for it the value of the request, not the empty
    string. *)
Lemma Param_unbound_name_keeps_request_value :
  let rt := newRoute "GET" "/path-param/:id" "h" in
  ServeHTTP (Handle emptyRouter "GET" "/path-param/:id" "h")
            {| Method := "GET"; Path := "/path-param/123";
               Context_ := [("user", "ann")] |}
  = [ServeRoute "h" [("id", "123"); ("user", "ann")]]
  /\ route_match rt [("user", "ann")] (pathSegments "/path-param/123")
     = Some [("id", "123"); ("user", "ann")]
  /\ ~ In "user"
         (map fst (boundParams (segs rt) (pathSegments "/path-param/123")))
  /\ Param [("id", "123"); ("user", "ann")] "user" = "ann"
  /\ Param [("id", "123"); ("user", "ann")] "user" <> "".
Proof.
  repeat split; try reflexivity.
  - simpl. intros [E|[]]. discriminate.
  - discriminate.
Qed.

(** * Further properties of the code *)

(** ** Path segments *)

Lemma substring_0_0 (s : string) : substring 0 0 s = "".
Proof. destruct s; reflexivity. Qed.

Lemma Contains_byte_cons (a c : ascii) (t : string) :
  Contains (String a t) (String c "")
  = Ascii.eqb a c || Contains t (String c "").
Proof.
  cbn [Contains]. f_equal.
  unfold HasPrefix. cbn [String.length Nat.leb substring].
  rewrite substring_0_0. cbn [String.eqb].
  destruct (Ascii.eqb a c); reflexivity.
Qed.

Lemma Contains_byte_nil (c : ascii) : Contains "" (String c "") = false.
Proof. reflexivity. Qed.

Lemma Split_not_nil (s : string) (c : ascii) : Split s c <> [].
Proof.
  destruct s as [|a t]; simpl; [discriminate|].
  destruct (Ascii.eqb a c); [discriminate|].
  destruct (Split t c); discriminate.
Qed.

Lemma Split_no_sep (s : string) (c : ascii) :
  Forall (fun seg => Contains seg (String c "") = false) (Split s c).
Proof.
  induction s as [|a t IH]; simpl.
  - repeat constructor.
  - destruct (Ascii.eqb a c) eqn:Hac.
    + constructor; [reflexivity | exact IH].
    + destruct (Split t c) as [|h tl]; [repeat constructor|].
      * rewrite Contains_byte_cons, Hac. reflexivity.
      * inversion IH; subst. constructor; [|assumption].
        rewrite Contains_byte_cons, Hac. simpl. assumption.
Qed.

Lemma Join_Split (s : string) (c : ascii) :
  Join (Split s c) (String c "") = s.
Proof.
  induction s as [|a t IH]; simpl; [reflexivity|].
  destruct (Ascii.eqb_spec a c) as [->|Hne].
  - pose proof (Split_not_nil t c) as Hnn.
    destruct (Split t c) as [|h tl]; [congruence|].
    simpl. simpl in IH. rewrite IH. reflexivity.
  - destruct (Split t c) as [|h tl] eqn:E.
    + exfalso. eapply Split_not_nil; eassumption.
    + simpl in IH. destruct tl as [|h' tl'].
      * simpl. rewrite IH. reflexivity.
      * simpl. simpl in IH. rewrite IH. reflexivity.
Qed.

Lemma trimRightByte_snoc (p : string) (c : ascii) :
  trimRightByte (String.append p (String c "")) c = trimRightByte p c.
Proof.
  induction p as [|a p IH]; simpl.
  - rewrite Ascii.eqb_refl. reflexivity.
  - rewrite IH. reflexivity.
Qed.

Lemma Trim_cons (p : string) (c : ascii) : Trim (String c p) c = Trim p c.
Proof.
  unfold Trim. simpl. rewrite Ascii.eqb_refl, andb_true_r.
  destruct (String.eqb_spec (trimRightByte p c) "") as [E|Hne].
  - rewrite E. reflexivity.
  - simpl. rewrite Ascii.eqb_refl. reflexivity.
Qed.

(** X1.  The segments of a path are never an empty list, none of them
    holds a "/", and joined with "/" they give back the path without its
    leading and trailing slashes. *)
Theorem pathSegments_shape (p : string) :
  pathSegments p <> []
  /\ Forall (fun seg => Contains seg "/" = false) (pathSegments p)
  /\ Join (pathSegments p) "/" = Trim p "/".
Proof.
  unfold pathSegments. split; [apply Split_not_nil|].
  split; [apply Split_no_sep | apply Join_Split].
Qed.

(** X2.  A slash more at the start or at the end of a path or pattern does
    not change its segments; a path made of slashes only has the segments of
    the empty path, one empty segment. *)
Theorem pathSegments_ignores_outer_slashes (p : string) :
  pathSegments (String "/" p) = pathSegments p
  /\ pathSegments (String.append p "/") = pathSegments p
  /\ pathSegments "" = [""]
  /\ pathSegments "/" = [""].
Proof.
  unfold pathSegments. split; [|split; [|split; reflexivity]].
  - rewrite Trim_cons. reflexivity.
  - unfold Trim. rewrite trimRightByte_snoc. reflexivity.
Qed.

(** ** The comparator *)

Lemma lowerByte_idempotent (c : ascii) : lowerByte (lowerByte c) = lowerByte c.
Proof. destruct c as [[] [] [] [] [] [] [] []]; reflexivity. Qed.

Lemma ToLower_idempotent (s : string) : ToLower (ToLower s) = ToLower s.
Proof.
  induction s as [|c t IH]; simpl; [reflexivity|].
  rewrite lowerByte_idempotent, IH. reflexivity.
Qed.

(** X3.  On every pair of patterns that are not both root-level parameters
    the comparator is a strict total order: it never puts each of the two
    before the other, it is transitive, and of two different patterns it
    puts one before the other. *)
Theorem comparator_strict_total_order (a b c : string) :
  (rootParam a && rootParam b) || negb (lessPattern a b && lessPattern b a)
  = true
  /\ implb (lessPattern a b && lessPattern b c) (lessPattern a c) = true
  /\ String.eqb a b || lessPattern a b || lessPattern b a = true.
Proof.
  split; [|split].
  - destruct (rootParam a && rootParam b) eqn:Hroot; [reflexivity|].
    destruct (lessPattern a b) eqn:Hab; [|reflexivity].
    rewrite (lessPattern_asym a b Hroot Hab). reflexivity.
  - destruct (lessPattern a b) eqn:Hab; [|reflexivity].
    destruct (lessPattern b c) eqn:Hbc; [|reflexivity].
    rewrite (lessPattern_trans a b c Hab Hbc). reflexivity.
  - destruct (String.eqb_spec a b) as [E|Hne]; [reflexivity|].
    destruct (lessPattern_total a b Hne) as [-> | ->];
      [reflexivity | apply orb_true_r].
Qed.

(** X4.  The comparator sorts by kind first: a pattern without ":" sorts
    before every pattern with ":", and every pattern that is not a
    root-level parameter sorts before every root-level parameter; in both
    cases never the other way round. *)
Theorem comparator_orders_kinds (a b : string) :
  patternKind a < patternKind b ->
  lessPattern a b = true /\ lessPattern b a = false.
Proof.
  unfold patternKind. rewrite !lessPattern_kinds.
  destruct (rootParam a), (rootParam b), (hasParam a), (hasParam b);
    simpl; intros H; try lia; split; reflexivity.
Qed.

Lemma comparator_orders_kinds_witness :
  lessPattern "/rss.xml" "/cool/:slug" = true
  /\ lessPattern "/cool/:slug" "/rss.xml" = false.
Proof. apply comparator_orders_kinds. vm_compute. lia. Defined.

(** X5.  The order of two patterns does not depend on the case of their
    letters, unless they differ by case only: patterns whose lower-cased
    forms differ compare as those forms do. *)
Theorem comparator_ignores_case (a b : string) :
  ToLower a <> ToLower b ->
  lessPattern a b = lessPattern (ToLower a) (ToLower b).
Proof.
  intros Hne. rewrite !lessPattern_kinds.
  unfold rootParam, hasParam, foldedLess.
  rewrite !ToLower_idempotent.
  apply String.eqb_neq in Hne. rewrite Hne. reflexivity.
Qed.

Lemma comparator_ignores_case_witness :
  lessPattern "/Cool" "/balloon" = lessPattern (ToLower "/Cool") (ToLower "/balloon").
Proof. apply comparator_ignores_case. discriminate. Defined.

(** ** Registration *)

Lemma ForallOrdPairs_Permutation_sym {A : Type} (R : A -> A -> Prop)
    (l l' : list A) :
  (forall a b, R a b -> R b a) ->
  Permutation l l' -> ForallOrdPairs R l -> ForallOrdPairs R l'.
Proof.
  intros Hsym.
  induction 1 as [|x l l' Hp IH|x y l|l l' l'' _ IH1 _ IH2]; intros Hl.
  - exact Hl.
  - inversion Hl; subst. constructor.
    + eapply Permutation_Forall; eassumption.
    + apply IH. assumption.
  - inversion Hl as [|? ? Hy Hxl]; subst.
    inversion Hxl as [|? ? Hx Hl']; subst.
    inversion Hy as [|? ? Hyx Hyl]; subst.
    constructor.
    + constructor; [apply Hsym; exact Hyx | exact Hx].
    + constructor; assumption.
  - apply IH2, IH1, Hl.
Qed.

Lemma ForallOrdPairs_map {A B : Type} (f : A -> B) (R : B -> B -> Prop)
    (l : list A) :
  ForallOrdPairs R (map f l) -> ForallOrdPairs (fun x y => R (f x) (f y)) l.
Proof.
  induction l as [|a l IH]; intros H; [constructor|].
  simpl in H. inversion H as [|? ? Ha Hl]; subst. constructor.
  - rewrite Forall_forall in *. intros x Hx. apply Ha. apply in_map. exact Hx.
  - apply IH. exact Hl.
Qed.

Section Registration.

Context {sorter : SortAlgorithm} {contract : SortContract} {Handler : Type}.

Implicit Types (r : Router Handler) (regs : list (string * string * Handler)).

(** X6.  Registrations only add entries: after a series of them the table
    holds the entries it had and one new entry for each registration, a
    second registration of a method and pattern included, and the count has
    grown by their number. *)
Theorem registrations_are_kept r regs :
  Permutation
    (routes (HandleAll r regs))
    (routes r
     ++ map (fun reg => newRoute (fst (fst reg)) (snd (fst reg)) (snd reg))
            regs)
  /\ Count (HandleAll r regs) = Count r + length regs.
Proof.
  pose proof (HandleAll_Permutation regs r) as Hp.
  split; [exact Hp|].
  unfold Count. rewrite (Permutation_length Hp), length_app, length_map.
  reflexivity.
Qed.

(** X7.  After any series of registrations on a new router of which no two
    patterns are root-level parameters, the table is sorted by the
    comparator. *)
Theorem registrations_leave_table_sorted (notFound : Handler) regs :
  oneRootParam (map (fun reg => snd (fst reg)) regs) ->
  IsSorted routeLess (routes (HandleAll (NewRouter notFound) regs)) = true.
Proof.
  intros Hone.
  induction regs as [|reg regs' _] using rev_ind; [reflexivity|].
  rewrite HandleAll_snoc. apply Handle_IsSorted.
  eapply ForallOrdPairs_Permutation_sym.
  - intros a b Hab. rewrite andb_comm. exact Hab.
  - symmetry.
    etransitivity; [apply Permutation_app_tail, HandleAll_Permutation|].
    simpl. rewrite <- (map_last
      (fun reg => newRoute (fst (fst reg)) (snd (fst reg)) (snd reg))).
    reflexivity.
  - apply ForallOrdPairs_map with (f := @pattern Handler)
      (R := fun p q => rootParam p && rootParam q = false).
    rewrite map_map. exact Hone.
Qed.

(** X8.  In a sorted table a root-level parameter can only be the last
    entry: a table with two root-level parameters is not sorted, however it
    is arranged. *)
Theorem sorted_table_has_root_param_last (l : list (route Handler)) i a :
  IsSorted routeLess l = true ->
  nth_error l i = Some a ->
  rootParam (pattern a) = true ->
  i = length l - 1.
Proof.
  intros Hs Hi Ha.
  destruct (nth_error_split l i Hi) as [l1 [l2 [El Hlen]]].
  subst l i. destruct l2 as [|b l2].
  - rewrite length_app. simpl. lia.
  - rewrite (IsSorted_rootParam_not_last l1 a b l2 Ha) in Hs. discriminate.
Qed.

End Registration.

Lemma registrations_are_kept_witness :
  let regs := [("GET", "/a", "h1"); ("GET", "/a", "h2"); ("POST", "/b", "h3")] in
  Permutation
    (routes (HandleAll emptyRouter regs))
    (routes emptyRouter
     ++ map (fun reg => newRoute (fst (fst reg)) (snd (fst reg)) (snd reg))
            regs)
  /\ Count (HandleAll emptyRouter regs) = Count emptyRouter + length regs.
Proof.
  apply (registrations_are_kept (contract := insertionSort_contract)).
Defined.

Lemma registrations_leave_table_sorted_witness :
  IsSorted routeLess
    (routes (HandleAll emptyRouter
               (map (fun p => ("GET", p, p)) eightPatterns)))
  = true.
Proof.
  apply (registrations_leave_table_sorted
           (contract := insertionSort_contract) "not found"
           (map (fun p => ("GET", p, p)) eightPatterns)).
  unfold oneRootParam. simpl.
  repeat (constructor; [repeat (constructor; [reflexivity|]); constructor|]).
  constructor.
Defined.

Lemma sorted_table_has_root_param_last_witness :
  1 = length (routes (HandleAll emptyRouter
                        [("GET", "/:slug", "h1"); ("GET", "/", "h2")])) - 1.
Proof.
  apply (sorted_table_has_root_param_last
           (routes (HandleAll emptyRouter
                      [("GET", "/:slug", "h1"); ("GET", "/", "h2")]))
           1 (newRoute "GET" "/:slug" "h1")); reflexivity.
Defined.

(** ** Matching and dispatch *)

Section MatchingFacts.

Context {Handler : Type}.

Implicit Types (rt : route Handler) (ctx : Ctx).

Lemma match_loop_shorter rsegs : forall ctx reqSegs,
  (forall seg, In seg rsegs -> isPrefixLiteral seg = false) ->
  length reqSegs < length rsegs ->
  match_loop ctx rsegs 0 reqSegs = None.
Proof.
  induction rsegs as [|seg rest IH]; intros ctx reqSegs Hno Hlen.
  - simpl in Hlen. lia.
  - destruct reqSegs as [|v reqSegs]; [reflexivity|].
    rewrite match_loop_cons.
    assert (Hrest : forall s, In s rest -> isPrefixLiteral s = false)
      by (intros s Hs; apply Hno; right; exact Hs).
    simpl in Hlen.
    pose proof (Hno seg (or_introl eq_refl)) as Hseg.
    unfold isPrefixLiteral in Hseg.
    destruct (isParam seg); [apply IH; [exact Hrest | lia]|].
    simpl in Hseg. rewrite Hseg. simpl.
    destruct (String.eqb seg v); [apply IH; [exact Hrest | lia] | reflexivity].
Qed.

Lemma boundParams_names psegs : forall reqSegs name,
  In name (map fst (boundParams psegs reqSegs)) -> In name (paramNames psegs).
Proof.
  unfold paramNames.
  induction psegs as [|seg rest IH]; intros [|v reqSegs] name; simpl;
    try contradiction.
  destruct (isParam seg); simpl.
  - intros [<-|Hin]; [left; reflexivity | right; eapply IH; eassumption].
  - destruct (_ && _); [contradiction | apply IH].
Qed.

(** X9.  A request with fewer segments than the pattern never matches a
    route whose pattern has no prefix-literal segment, parameters or not. *)
Theorem shorter_request_never_matches rt ctx reqSegs :
  (forall seg, In seg (segs rt) -> isPrefixLiteral seg = false) ->
  length reqSegs < length (segs rt) ->
  route_match rt ctx reqSegs = None.
Proof.
  intros Hno Hlen. unfold route_match.
  destruct (_ && _); [reflexivity|].
  apply match_loop_shorter; assumption.
Qed.

(** X10.  Matching adds to the context of the request and takes nothing
    away: for a name that is not a parameter of the pattern, [Param] gives
    in the context of the match what it gives in the context of the
    request. *)
Theorem match_keeps_request_context rt ctx reqSegs ctx' name :
  route_match rt ctx reqSegs = Some ctx' ->
  ~ In name (paramNames (segs rt)) ->
  Param ctx' name = Param ctx name.
Proof.
  intros Hm Hnot. apply route_match_boundParams in Hm. subst ctx'.
  unfold Param. rewrite Value_app_unbound; [reflexivity|].
  rewrite map_rev, <- in_rev. intros Hin. apply Hnot.
  eapply boundParams_names. exact Hin.
Qed.

Lemma match_loop_split pre : forall ctx seg post reqSegs ctx',
  (forall s, In s pre -> isPrefixLiteral s = false) ->
  match_loop ctx (pre ++ seg :: post) 0 reqSegs = Some ctx' ->
  exists ctx1 rpre rrest,
    reqSegs = rpre ++ rrest /\ length rpre = length pre
    /\ match_loop ctx1 (seg :: post) 0 rrest = Some ctx'.
Proof.
  induction pre as [|s pre IH]; intros ctx seg post reqSegs ctx' Hno Hm.
  - exists ctx, [], reqSegs. auto.
  - destruct reqSegs as [|v reqSegs]; [discriminate|].
    simpl app in Hm. rewrite match_loop_cons in Hm.
    assert (Hrest : forall x, In x pre -> isPrefixLiteral x = false)
      by (intros x Hx; apply Hno; right; exact Hx).
    pose proof (Hno s (or_introl eq_refl)) as Hs.
    unfold isPrefixLiteral in Hs.
    destruct (isParam s).
    + destruct (IH _ _ _ _ _ Hrest Hm) as [ctx1 [rpre [rrest [E [Hl Hm']]]]].
      exists ctx1, (v :: rpre), rrest. subst reqSegs. simpl. auto.
    + simpl in Hs. rewrite Hs in Hm. simpl in Hm.
      destruct (String.eqb s v); [|discriminate].
      destruct (IH _ _ _ _ _ Hrest Hm) as [ctx1 [rpre [rrest [E [Hl Hm']]]]].
      exists ctx1, (v :: rpre), rrest. subst reqSegs. simpl. auto.
Qed.

(** X11.  When a route matches, [Param] gives for the name of a parameter
    segment the request segment at the position of that segment, provided
    no prefix literal stands before it and no later parameter of the pattern
    has the same name. *)
Theorem Param_gives_request_segment rt ctx reqSegs ctx' pre seg post :
  route_match rt ctx reqSegs = Some ctx' ->
  segs rt = pre ++ seg :: post ->
  isParam seg = true ->
  (forall s, In s pre -> isPrefixLiteral s = false) ->
  ~ In (TrimPrefix seg ":") (paramNames post) ->
  exists v,
    nth_error reqSegs (length pre) = Some v
    /\ Param ctx' (TrimPrefix seg ":") = v.
Proof.
  intros Hm Hsegs Hparam Hpre Hlater.
  unfold route_match in Hm. destruct (_ && _); [discriminate|].
  rewrite Hsegs in Hm.
  destruct (match_loop_split _ _ _ _ _ _ Hpre Hm)
    as [ctx1 [rpre [rrest [E [Hl Hm']]]]].
  destruct rrest as [|v rrest]; [discriminate|].
  rewrite match_loop_cons, Hparam in Hm'.
  apply match_loop_boundParams in Hm'.
  exists v. split.
  - subst reqSegs. rewrite nth_error_app2 by lia.
    rewrite Hl, Nat.sub_diag. reflexivity.
  - subst ctx'. unfold Param. rewrite Value_app_unbound.
    + unfold WithValue. simpl. rewrite String.eqb_refl. reflexivity.
    + rewrite map_rev, <- in_rev. intros Hin. apply Hlater.
      eapply boundParams_names. exact Hin.
Qed.

End MatchingFacts.

Lemma shorter_request_never_matches_witness :
  route_match (newRoute "GET" "/not/:enough/items" "h") []
              (pathSegments "/not/enough")
  = None.
Proof.
  apply shorter_request_never_matches.
  - simpl. intros seg [<-|[<-|[<-|[]]]]; reflexivity.
  - simpl. lia.
Defined.

Lemma match_keeps_request_context_witness :
  Param [("id", "123"); ("user", "ann")] "user" = Param [("user", "ann")] "user".
Proof.
  apply (match_keeps_request_context
           (newRoute "GET" "/path-param/:id" "h") [("user", "ann")]
           (pathSegments "/path-param/123")).
  - reflexivity.
  - simpl. intros [E|[]]. discriminate.
Defined.

Lemma Param_gives_request_segment_witness :
  exists v,
    nth_error (pathSegments "/path-params/60s/beatles/lennon") (length ["path-params"; ":era"])
    = Some v
    /\ Param [("member", "lennon"); ("group", "beatles"); ("era", "60s")]
             (TrimPrefix ":group" ":")
       = v.
Proof.
  apply (Param_gives_request_segment
           (newRoute "GET" "/path-params/:era/:group/:member" "h") []
           (pathSegments "/path-params/60s/beatles/lennon")
           [("member", "lennon"); ("group", "beatles"); ("era", "60s")]
           ["path-params"; ":era"] ":group" [":member"]).
  - reflexivity.
  - reflexivity.
  - reflexivity.
  - simpl. intros s [<-|[<-|[]]]; reflexivity.
  - simpl. intros [E|[]]. discriminate.
Defined.

Section DispatchFacts.

Context {sorter : SortAlgorithm} {contract : SortContract} {Handler : Type}.

Implicit Types (r : Router Handler) (regs : list (string * string * Handler)).

Lemma NotFound_HandleAll regs : forall r,
  NotFound (HandleAll r regs) = NotFound r.
Proof.
  unfold HandleAll.
  induction regs as [|reg regs IH]; intros r; simpl; [reflexivity|].
  rewrite IH. reflexivity.
Qed.

Lemma newRoute_accepts_itself m p (h : Handler) ctx :
  accepts (newRoute m p h) (ToLower m) ctx (pathSegments p) = true.
Proof.
  unfold accepts, methodAllowed, route_match. simpl.
  rewrite String.eqb_refl, Nat.ltb_irrefl. simpl.
  pose proof (match_loop_self (pathSegments p) ctx) as Hself.
  destruct (match_loop ctx (pathSegments p) 0 (pathSegments p));
    [reflexivity | congruence].
Qed.

Lemma Handle_NewRouter_serves_itself (notFound : Handler) m p h ctx :
  exists ctx',
    ServeHTTP (Handle (NewRouter notFound) m p h)
              {| Method := m; Path := p; Context_ := ctx |}
    = [ServeRoute h ctx'].
Proof.
  unfold ServeHTTP. rewrite Handle_NewRouter.
  simpl Method. simpl Path. simpl Context_.
  pose proof (newRoute_accepts_itself m p h ctx) as Hacc.
  unfold accepts in Hacc. apply andb_true_iff in Hacc.
  destruct Hacc as [Hm Hrt].
  destruct (route_match (newRoute m p h) ctx (pathSegments p))
    as [ctx'|] eqn:E; [|discriminate].
  exists ctx'. cbn [ServeHTTP_loop]. rewrite Hm, E. reflexivity.
Qed.

(** X12.  Once a route is registered, a request with its method and with
    its pattern as the path is served by a route, never by the not-found
    handler, whatever the pattern and whatever else the table holds; on a
    table holding that route alone it is served by its handler. *)
Theorem registered_pattern_is_served r (notFound : Handler) m p h ctx :
  (exists h' ctx',
      ServeHTTP (Handle r m p h)
                {| Method := m; Path := p; Context_ := ctx |}
      = [ServeRoute h' ctx'])
  /\ (exists ctx',
         ServeHTTP (Handle (NewRouter notFound) m p h)
                   {| Method := m; Path := p; Context_ := ctx |}
         = [ServeRoute h ctx']).
Proof.
  split; [|apply Handle_NewRouter_serves_itself].
  unfold ServeHTTP. simpl Method. simpl Path. simpl Context_.
  destruct (first_accepting (routes (Handle r m p h)) (ToLower m)
              (pathSegments p) ctx)
    as [[pre [rt [post [ctx' [E [Hpre [Hm Hrt]]]]]]] | Hno].
  - exists (handler rt), ctx'. rewrite E.
    apply ServeHTTP_loop_first; assumption.
  - exfalso.
    assert (Hin : In (newRoute m p h) (routes (Handle r m p h))).
    { eapply Permutation_in;
        [symmetry; apply Handle_Permutation|].
      apply in_or_app. right. left. reflexivity. }
    apply Hno in Hin. rewrite newRoute_accepts_itself in Hin.
    discriminate.
Qed.

(** X13.  A request whose method is none of the registered methods, "*" not
    being among them, goes to the not-found handler whatever its path. *)
Theorem unregistered_method_is_not_found (notFound : Handler) regs m path ctx :
  (forall reg, In reg regs ->
     fst (fst reg) <> "*" /\ ToLower (fst (fst reg)) <> ToLower m) ->
  ServeHTTP (HandleAll (NewRouter notFound) regs)
            {| Method := m; Path := path; Context_ := ctx |}
  = [ServeNotFound notFound ctx].
Proof.
  intros Hregs. unfold ServeHTTP. rewrite NotFound_HandleAll.
  simpl Method. simpl Path. simpl Context_. simpl NotFound.
  apply ServeHTTP_loop_none.
  intros x Hx.
  apply (Permutation_in _ (HandleAll_Permutation regs (NewRouter notFound)))
    in Hx.
  simpl in Hx. apply in_map_iff in Hx. destruct Hx as [reg [<- Hreg]].
  destruct (Hregs reg Hreg) as [Hstar Hm].
  unfold accepts, methodAllowed. simpl method.
  apply String.eqb_neq in Hm. rewrite Hm.
  assert (Hs : String.eqb (ToLower (fst (fst reg))) "*" = false).
  { apply String.eqb_neq. rewrite ToLower_star. exact Hstar. }
  rewrite Hs. reflexivity.
Qed.

End DispatchFacts.

Lemma registered_pattern_is_served_witness :
  (exists h' ctx',
      ServeHTTP (Handle (Handle emptyRouter "GET" "/files/:name" "h1")
                        "get" "/files/img..." "h2")
                {| Method := "get"; Path := "/files/img..."; Context_ := [] |}
      = [ServeRoute h' ctx'])
  /\ (exists ctx',
         ServeHTTP (Handle (NewRouter "not found") "get" "/files/img..." "h2")
                   {| Method := "get"; Path := "/files/img..."; Context_ := [] |}
         = [ServeRoute "h2" ctx']).
Proof.
  apply (registered_pattern_is_served (contract := insertionSort_contract)).
Defined.

Lemma unregistered_method_is_not_found_witness :
  ServeHTTP (HandleAll (NewRouter "not found")
               [("GET", "/route", "h1"); ("Delete", "/route", "h2")])
            {| Method := "POST"; Path := "/route"; Context_ := [] |}
  = [ServeNotFound "not found" []].
Proof.
  apply (unregistered_method_is_not_found
           (contract := insertionSort_contract)).
  intros reg [<-|[<-|[]]]; split; discriminate.
Defined.

(** ** Removal, in full *)

Section RemoveScan.

Context {Handler : Type} (m p : string).

Implicit Types (s : slice Handler) (x y z : route Handler)
  (l out cur stale pre : list (route Handler)).

Lemma last_cons_default l : forall x d d',
  last (x :: l) d = last (x :: l) d'.
Proof.
  induction l as [|y l IH]; intros x d d'; [reflexivity|].
  change (last (x :: y :: l) d) with (last (y :: l) d).
  change (last (x :: y :: l) d') with (last (y :: l) d').
  apply IH.
Qed.

Lemma skipn_last cur : forall x,
  skipn (length cur) (x :: cur) = [last cur x].
Proof.
  induction cur as [|y cur IH]; intros x; [reflexivity|].
  change (skipn (length (y :: cur)) (x :: y :: cur))
    with (skipn (length cur) (y :: cur)).
  rewrite IH. f_equal.
  destruct cur as [|z cur]; [reflexivity|].
  change (last (y :: z :: cur) x) with (last (z :: cur) x).
  apply last_cons_default.
Qed.

(** The slice after [removeIndex] at the first entry not yet visited. *)
Lemma removeIndex_layout out x cur stale :
  removeIndex {| arr := out ++ x :: cur ++ stale;
                 len := length out + S (length cur) |} (length out)
  = Some {| arr := out ++ cur ++ last cur x :: stale;
            len := length out + length cur |}.
Proof.
  unfold removeIndex. cbn [arr len].
  replace (length out + 1 <=? length out + S (length cur)) with true
    by (symmetry; apply Nat.leb_le; lia).
  f_equal. f_equal; [|lia].
  rewrite firstn_app, firstn_all, Nat.sub_diag, firstn_0, app_nil_r.
  f_equal.
  rewrite skipn_app, (skipn_all2 out) by lia.
  replace (length out + 1 - length out) with 1 by lia.
  cbn [app skipn].
  replace (length out + S (length cur) - (length out + 1))
    with (length cur) by lia.
  rewrite firstn_app, firstn_all, Nat.sub_diag, firstn_0, app_nil_r.
  f_equal.
  replace (length out + S (length cur) - 1)
    with (length out + length cur) by lia.
  rewrite skipn_app, (skipn_all2 out) by lia.
  replace (length out + length cur - length out) with (length cur) by lia.
  cbn [app].
  change (x :: cur ++ stale) with ((x :: cur) ++ stale).
  rewrite skipn_app, skipn_last.
  replace (length cur - length (x :: cur)) with 0 by (simpl; lia).
  reflexivity.
Qed.

(** The visits past the end of the slice: the first one that reads an entry
    with the key panics. *)
Lemma Remove_loop_past_end stale : forall pre n,
  n <= length pre ->
  Remove_loop m p (length stale) (length pre)
              {| arr := pre ++ stale; len := n |}
  = if existsb (keyMatches m p) stale
    then None
    else Some {| arr := pre ++ stale; len := n |}.
Proof.
  induction stale as [|z stale IH]; intros pre n Hn; [reflexivity|].
  cbn [length Remove_loop arr existsb].
  rewrite nth_error_app2, Nat.sub_diag by lia. cbn [nth_error].
  fold (keyMatches m p z).
  destruct (keyMatches m p z) eqn:Hz.
  - unfold removeIndex. cbn [len].
    replace (length pre + 1 <=? n) with false
      by (symmetry; apply Nat.leb_gt; lia).
    reflexivity.
  - cbn [orb].
    replace (pre ++ z :: stale) with ((pre ++ [z]) ++ stale)
      by (rewrite <- app_assoc; reflexivity).
    replace (S (length pre)) with (length (pre ++ [z]))
      by (rewrite length_app; simpl; lia).
    apply IH. rewrite length_app. simpl. lia.
Qed.

Lemma Remove_loop_removeScan k : forall cur out stale,
  length cur <= k ->
  option_map visible
    (Remove_loop m p (length cur + length stale) (length out)
       {| arr := out ++ cur ++ stale; len := length out + length cur |})
  = option_map (app out) (removeScan m p cur stale).
Proof.
  induction k as [|k IH]; intros cur out stale Hk.
  - destruct cur; [|simpl in Hk; lia].
    cbn [length Nat.add app removeScan].
    rewrite Remove_loop_past_end by lia.
    destruct (existsb _ stale); [reflexivity|].
    unfold visible. cbn [option_map arr len].
    rewrite Nat.add_0_r, firstn_app, firstn_all, Nat.sub_diag, firstn_0.
    reflexivity.
  - destruct cur as [|x cur].
    + cbn [length Nat.add app removeScan].
      rewrite Remove_loop_past_end by lia.
      destruct (existsb _ stale); [reflexivity|].
      unfold visible. cbn [option_map arr len].
      rewrite Nat.add_0_r, firstn_app, firstn_all, Nat.sub_diag, firstn_0.
      reflexivity.
    + cbn [length Nat.add Remove_loop arr removeScan].
      rewrite nth_error_app2, Nat.sub_diag by lia. cbn [app nth_error].
      fold (keyMatches m p x).
      destruct (keyMatches m p x) eqn:Hx.
      * rewrite removeIndex_layout.
        destruct cur as [|y cur].
        -- cbn [app length last Nat.add].
           replace (out ++ x :: stale) with ((out ++ [x]) ++ stale)
             by (rewrite <- app_assoc; reflexivity).
           replace (S (length out)) with (length (out ++ [x]))
             by (rewrite length_app; simpl; lia).
           rewrite Remove_loop_past_end by (rewrite length_app; simpl; lia).
           destruct (existsb _ stale); [reflexivity|].
           unfold visible. cbn [option_map arr len].
           rewrite Nat.add_0_r, <- app_assoc, firstn_app, firstn_all,
             Nat.sub_diag, firstn_0.
           reflexivity.
        -- specialize (IH cur (out ++ [y]) (last (y :: cur) x :: stale)
                          ltac:(simpl in Hk; lia)).
           rewrite length_app in IH. cbn [length] in IH.
           replace (length out + 1) with (S (length out)) in IH by lia.
           rewrite <- !app_assoc in IH. cbn [app] in IH.
           replace (length cur + S (length stale))
             with (length cur + length stale + 1) in IH by lia.
           cbn [length app].
           replace (length cur + length stale + 1)
             with (S (length cur + length stale)) in IH by lia.
           replace (S (length out) + length cur)
             with (length out + S (length cur)) in IH by lia.
           replace (S (length cur) + length stale)
             with (S (length cur + length stale)) by lia.
           rewrite IH.
           destruct (removeScan m p cur (last (y :: cur) x :: stale));
             cbn [option_map]; [|reflexivity].
           rewrite <- app_assoc. reflexivity.
      * specialize (IH cur (out ++ [x]) stale ltac:(simpl in Hk; lia)).
        rewrite length_app in IH. cbn [length] in IH.
        replace (length out + 1) with (S (length out)) in IH by lia.
        rewrite <- !app_assoc in IH. cbn [app] in IH.
        replace (S (length out) + length cur)
          with (length out + S (length cur)) in IH by lia.
        rewrite IH.
        destruct (removeScan m p cur stale); cbn [option_map]; [|reflexivity].
        rewrite <- app_assoc. reflexivity.
Qed.

Lemma Remove_removeScan (r : Router Handler) :
  Remove r m p
  = option_map (fun l => {| routes := l; NotFound := NotFound r |})
               (removeScan m p (routes r) []).
Proof.
  pose proof (Remove_loop_removeScan (length (routes r)) (routes r) [] []
                (le_n _)) as H.
  cbn [length app Nat.add] in H. rewrite Nat.add_0_r, app_nil_r in H.
  unfold Remove.
  destruct (Remove_loop m p (length (routes r)) 0 _) as [s|];
    destruct (removeScan m p (routes r) []) as [l|];
    cbn [option_map] in *; try discriminate; [|reflexivity].
  injection H as H. unfold visible in H. rewrite H. reflexivity.
Qed.

End RemoveScan.

Section RemoveBehaviour.

Context {Handler : Type} (m p : string).

Implicit Types (r : Router Handler) (x y z : route Handler)
  (l cur stale : list (route Handler)).

Lemma last_cons l x d : last (x :: l) d = last l x.
Proof.
  destruct l as [|y l]; [reflexivity|].
  change (last (x :: y :: l) d) with (last (y :: l) d).
  apply last_cons_default.
Qed.

Lemma lastHasKey_cons x l :
  lastHasKey m p (x :: l) = keyMatches m p (last l x).
Proof.
  unfold lastHasKey. cbn [length]. rewrite Nat.sub_succ, Nat.sub_0_r.
  rewrite skipn_last. simpl. apply orb_false_r.
Qed.

Lemma lastHasKey_cons_cons x y l :
  lastHasKey m p (x :: y :: l) = lastHasKey m p (y :: l).
Proof.
  rewrite !lastHasKey_cons. f_equal. apply last_cons.
Qed.

Lemma removeScan_cons x cur stale :
  removeScan m p (x :: cur) stale
  = if keyMatches m p x
    then match cur with
         | [] => if existsb (keyMatches m p) stale then None else Some []
         | y :: c =>
             option_map (cons y) (removeScan m p c (last cur x :: stale))
         end
    else option_map (cons x) (removeScan m p cur stale).
Proof. reflexivity. Qed.

Lemma removeScan_None k : forall cur stale,
  length cur <= k ->
  match removeScan m p cur stale with None => true | Some _ => false end
  = existsb (keyMatches m p) stale
    || (existsb (keyMatches m p) (removelast cur) && lastHasKey m p cur).
Proof.
  induction k as [|k IH]; intros cur stale Hk.
  - destruct cur; [|simpl in Hk; lia]. simpl.
    destruct (existsb _ stale); reflexivity.
  - destruct cur as [|x [|y c]].
    + simpl. destruct (existsb _ stale); reflexivity.
    + simpl. destruct (keyMatches m p x);
        destruct (existsb _ stale); reflexivity.
    + rewrite removeScan_cons.
      change (removelast (x :: y :: c)) with (x :: removelast (y :: c)).
      cbn [existsb]. rewrite lastHasKey_cons_cons.
      destruct (keyMatches m p x) eqn:Hx.
      * pose proof (IH c (last (y :: c) x :: stale)
                         ltac:(simpl in Hk; lia)) as H.
        rewrite (last_cons c y x) in *.
        destruct (removeScan m p c (last c y :: stale)) eqn:E;
          cbn [option_map];
          cbn [existsb] in H;
          rewrite lastHasKey_cons.
        -- symmetry in H. apply orb_false_iff in H. destruct H as [H1 _].
           apply orb_false_iff in H1. destruct H1 as [-> ->]. reflexivity.
        -- symmetry in H. cbn [orb].
           destruct (keyMatches m p (last c y)) eqn:Hl;
             [symmetry; apply orb_true_r|].
           destruct (existsb _ stale); [reflexivity|].
           cbn [orb] in H.
           destruct c as [|z c']; [discriminate H|].
           rewrite lastHasKey_cons in H.
           rewrite <- (last_cons c' z y) in H.
           rewrite Hl, andb_false_r in H. discriminate.
      * cbn [orb].
        pose proof (IH (y :: c) stale ltac:(simpl in *; lia)) as H.
        destruct (removeScan m p (y :: c) stale); cbn [option_map]; exact H.
Qed.

Lemma removeScan_Some k : forall cur stale l,
  length cur <= k ->
  removeScan m p cur stale = Some l -> l = skipScan m p cur.
Proof.
  induction k as [|k IH]; intros cur stale l Hk.
  - destruct cur; [|simpl in Hk; lia]. simpl.
    destruct (existsb _ stale); [discriminate | congruence].
  - destruct cur as [|x cur]; simpl.
    + destruct (existsb _ stale); [discriminate | congruence].
    + destruct (keyMatches m p x).
      * destruct cur as [|y c].
        -- destruct (existsb _ stale); [discriminate | congruence].
        -- destruct (removeScan m p c _) as [l'|] eqn:E; [|discriminate].
           cbn [option_map]. intros H. injection H as <-. f_equal.
           eapply IH; [|exact E]. simpl in Hk. lia.
      * destruct (removeScan m p cur stale) as [l'|] eqn:E; [|discriminate].
        cbn [option_map]. intros H. injection H as <-. f_equal.
        eapply IH; [|exact E]. simpl in Hk. lia.
Qed.

(** X14.  What [Remove] does, in full.  It panics when the last entry of
    the table has the key and an earlier entry has it too.  Otherwise it
    returns, and the table is the one left by a scan that deletes an entry
    with the key when it visits it and steps over the entry that follows a
    deleted one. *)
Theorem Remove_scans_and_skips r :
  Remove r m p
  = if existsb (keyMatches m p) (removelast (routes r))
       && lastHasKey m p (routes r)
    then None
    else Some {| routes := skipScan m p (routes r); NotFound := NotFound r |}.
Proof.
  rewrite Remove_removeScan.
  pose proof (removeScan_None (length (routes r)) (routes r) [] (le_n _))
    as Hnone.
  cbn [existsb orb] in Hnone. rewrite <- Hnone.
  destruct (removeScan m p (routes r) []) as [l|] eqn:E; [|reflexivity].
  cbn [option_map].
  rewrite (removeScan_Some _ _ _ _ (le_n _) E). reflexivity.
Qed.

Lemma noAdjacentKeys_cons_cons x y l :
  noAdjacentKeys m p (x :: y :: l)
  = negb (keyMatches m p x && keyMatches m p y)
    && noAdjacentKeys m p (y :: l).
Proof. reflexivity. Qed.

Lemma noAdjacentKeys_tail x l :
  noAdjacentKeys m p (x :: l) = true -> noAdjacentKeys m p l = true.
Proof.
  destruct l as [|y l]; [reflexivity|].
  rewrite noAdjacentKeys_cons_cons. intros H.
  apply andb_true_iff in H. apply H.
Qed.

Lemma skipScan_cons x l :
  skipScan m p (x :: l)
  = if keyMatches m p x
    then match l with [] => [] | y :: l' => y :: skipScan m p l' end
    else x :: skipScan m p l.
Proof. reflexivity. Qed.

Lemma skipScan_filter k : forall l,
  length l <= k ->
  noAdjacentKeys m p l = true ->
  skipScan m p l = filter (fun v => negb (keyMatches m p v)) l.
Proof.
  induction k as [|k IH]; intros l Hk Hadj.
  - destruct l; [reflexivity | simpl in Hk; lia].
  - destruct l as [|x [|y l]].
    + reflexivity.
    + simpl. destruct (keyMatches m p x); reflexivity.
    + rewrite skipScan_cons.
      change (filter (fun v => negb (keyMatches m p v)) (x :: y :: l))
        with (if negb (keyMatches m p x)
              then x :: filter (fun v => negb (keyMatches m p v)) (y :: l)
              else filter (fun v => negb (keyMatches m p v)) (y :: l)).
      rewrite noAdjacentKeys_cons_cons in Hadj.
      apply andb_true_iff in Hadj.
      destruct Hadj as [Hxy Hrest].
      destruct (keyMatches m p x) eqn:Hx; cbn [negb].
      * destruct (keyMatches m p y) eqn:Hy; [discriminate|].
        cbn [filter]. rewrite Hy. cbn [negb]. f_equal.
        apply IH; [simpl in Hk; lia|].
        eapply noAdjacentKeys_tail. exact Hrest.
      * f_equal. rewrite (IH (y :: l)); [reflexivity | simpl in *; lia|].
        exact Hrest.
Qed.

(** X15.  A [Remove] that returns has deleted every entry with the key
    when no two such entries stand next to each other in the table. *)
Theorem Remove_deletes_all_when_not_adjacent r r' :
  noAdjacentKeys m p (routes r) = true ->
  Remove r m p = Some r' ->
  routes r' = filter (fun v => negb (keyMatches m p v)) (routes r).
Proof.
  intros Hadj. rewrite Remove_removeScan.
  destruct (removeScan m p (routes r) []) as [l|] eqn:E; [|discriminate].
  cbn [option_map]. intros H. injection H as <-. cbn [routes].
  rewrite (removeScan_Some _ _ _ _ (le_n _) E).
  apply (skipScan_filter _ _ (le_n _) Hadj).
Qed.

(** X16.  Removing a key that no entry has leaves the router as it is. *)
Theorem Remove_missing_key r :
  existsb (keyMatches m p) (routes r) = false ->
  Remove r m p = Some r.
Proof.
  intros Hno. apply Remove_absent.
  intros v Hv.
  destruct (keyMatches m p v) eqn:Hk; [|reflexivity].
  assert (existsb (keyMatches m p) (routes r) = true)
    by (apply existsb_exists; eauto).
  congruence.
Qed.

(** X17.  A [Remove] that returns has deleted only entries with the key:
    the entries with other keys are all in the table, in the order they
    had, and the count has not grown. *)
Theorem Remove_keeps_other_keys r r' :
  Remove r m p = Some r' ->
  filter (fun v => negb (keyMatches m p v)) (routes r')
  = filter (fun v => negb (keyMatches m p v)) (routes r)
  /\ Count r' <= Count r
  /\ NotFound r' = NotFound r.
Proof.
  intros Hr. pose proof (Remove_dropsKey m p r r' Hr) as Hd.
  split; [apply dropsKey_other_keys; exact Hd|]. split.
  - unfold Count. clear Hr. induction Hd; simpl; lia.
  - unfold Remove in Hr.
    destruct (Remove_loop _ _ _ _ _); [|discriminate].
    injection Hr as <-. reflexivity.
Qed.

End RemoveBehaviour.

Lemma Remove_deletes_all_when_not_adjacent_witness :
  let r := HandleAll emptyRouter
             [("GET", "/a", "h1"); ("GET", "/b", "h2"); ("POST", "/b", "h3");
              ("GET", "/c", "h4")] in
  let r' := {| routes := [newRoute "GET" "/a" "h1"; newRoute "POST" "/b" "h3";
                          newRoute "GET" "/c" "h4"];
               NotFound := "not found" |} in
  routes r' = filter (fun v => negb (keyMatches "GET" "/b" v)) (routes r).
Proof.
  apply (Remove_deletes_all_when_not_adjacent "GET" "/b"); reflexivity.
Defined.

Lemma Remove_missing_key_witness :
  Remove (Handle emptyRouter "GET" "/user" "h") "GET" "/users"
  = Some (Handle emptyRouter "GET" "/user" "h").
Proof. apply Remove_missing_key. reflexivity. Defined.

Lemma Remove_keeps_other_keys_witness :
  let r := HandleAll emptyRouter
             [("GET", "/a", "h1"); ("GET", "/a", "h2"); ("GET", "/b", "h3")] in
  let r' := {| routes := skipScan "GET" "/a" (routes r);
               NotFound := "not found" |} in
  filter (fun v => negb (keyMatches "GET" "/a" v)) (routes r')
  = filter (fun v => negb (keyMatches "GET" "/a" v)) (routes r)
  /\ Count r' <= Count r
  /\ NotFound r' = NotFound r.
Proof.
  apply (Remove_keeps_other_keys "GET" "/a"). reflexivity.
Defined.

Lemma Remove_IsSorted_witness :
  let r := HandleAll emptyRouter
             [("GET", "/b", "h1"); ("GET", "/a", "h2"); ("GET", "/:id", "h3")] in
  let r' := {| routes := [newRoute "GET" "/b" "h1"; newRoute "GET" "/:id" "h3"];
               NotFound := "not found" |} in
  IsSorted routeLess (routes r') = true.
Proof.
  apply (Remove_IsSorted "GET" "/a"
           (HandleAll emptyRouter
              [("GET", "/b", "h1"); ("GET", "/a", "h2"); ("GET", "/:id", "h3")]));
    reflexivity.
Defined.

Section RemoveKey.

Context {Handler : Type}.

Implicit Types (r : Router Handler) (s : slice Handler).

Lemma Remove_loop_method m m' p n : forall index s,
  ToLower m = ToLower m' ->
  Remove_loop m p n index s = Remove_loop m' p n index s.
Proof.
  induction n as [|n IH]; intros index s Hm; [reflexivity|].
  cbn [Remove_loop].
  destruct (nth_error (arr s) index) as [v|]; [|reflexivity].
  unfold EqualFold. rewrite Hm.
  destruct (_ && _).
  - destruct (removeIndex s index); [apply IH; exact Hm | reflexivity].
  - apply IH. exact Hm.
Qed.

(** X18.  The method of a removal key is compared without regard to the
    case of its letters: two keys that differ by the case of the method
    remove the same entries. *)
Theorem Remove_method_case_insensitive r m m' p :
  ToLower m = ToLower m' ->
  Remove r m p = Remove r m' p.
Proof.
  intros Hm. unfold Remove.
  rewrite (Remove_loop_method m m' p _ _ _ Hm). reflexivity.
Qed.

Context {sorter : SortAlgorithm} {contract : SortContract}.

Lemma keyMatches_newRoute m m' p (h : Handler) :
  ToLower m = ToLower m' -> keyMatches m' p (newRoute m p h) = true.
Proof.
  intros Hm. unfold keyMatches, EqualFold. simpl.
  rewrite String.eqb_refl, ToLower_idempotent, Hm. apply String.eqb_refl.
Qed.

Lemma Remove_after_Handle r m m' p h :
  ToLower m = ToLower m' ->
  existsb (keyMatches m' p) (routes r) = false ->
  exists r',
    Remove (Handle r m p h) m' p = Some r'
    /\ Permutation (routes r') (routes r)
    /\ NotFound r' = NotFound r.
Proof.
  intros Hm Hno.
  pose proof (Handle_Permutation r m p h) as Hp.
  assert (Hin : In (newRoute m p h) (routes (Handle r m p h))).
  { eapply Permutation_in; [symmetry; exact Hp|].
    apply in_or_app. right. left. reflexivity. }
  apply in_split in Hin. destruct Hin as [pre [post E]].
  assert (Hrest : Permutation (routes r) (pre ++ post)).
  { apply Permutation_cons_app_inv with (a := newRoute m p h).
    rewrite <- E, Hp. apply Permutation_cons_append. }
  exists {| routes := pre ++ post; NotFound := NotFound (Handle r m p h) |}.
  split; [|split].
  - apply (Remove_single m' p _ pre (newRoute m p h) post E).
    + apply keyMatches_newRoute. exact Hm.
    + intros w Hw.
      apply (Permutation_in _ (Permutation_sym Hrest)) in Hw.
      destruct (keyMatches m' p w) eqn:Hk; [|reflexivity].
      assert (existsb (keyMatches m' p) (routes r) = true)
        by (apply existsb_exists; eauto).
      congruence.
  - simpl. symmetry. exact Hrest.
  - reflexivity.
Qed.

Lemma Remove_after_Handle_new (notFound : Handler) m m' p h :
  ToLower m = ToLower m' ->
  Remove (Handle (NewRouter notFound) m p h) m' p = Some (NewRouter notFound).
Proof.
  intros Hm.
  pose proof (Handle_NewRouter notFound m p h) as Ht.
  rewrite (Remove_single m' p _ [] (newRoute m p h) [] Ht).
  - reflexivity.
  - apply keyMatches_newRoute. exact Hm.
  - intros w [].
Qed.

(** X19.  Removal undoes a registration: after registering a method and
    pattern that no entry of the table has and removing that key, written
    with the method in any case, the table holds the entries it had before,
    and as many; on a new router it is empty again. *)
Theorem Remove_undoes_Handle r (notFound : Handler) m m' p h :
  ToLower m = ToLower m' ->
  existsb (keyMatches m' p) (routes r) = false ->
  (exists r',
      Remove (Handle r m p h) m' p = Some r'
      /\ Permutation (routes r') (routes r)
      /\ Count r' = Count r)
  /\ Remove (Handle (NewRouter notFound) m p h) m' p
     = Some (NewRouter notFound).
Proof.
  intros Hm Hno. split.
  - destruct (Remove_after_Handle r m m' p h Hm Hno) as [r' [Hr [Hp _]]].
    exists r'. split; [exact Hr|]. split; [exact Hp|].
    unfold Count. apply Permutation_length. exact Hp.
  - apply Remove_after_Handle_new. exact Hm.
Qed.

End RemoveKey.

Lemma Remove_method_case_insensitive_witness :
  Remove (Handle emptyRouter "GET" "/user" "h") "get" "/user"
  = Remove (Handle emptyRouter "GET" "/user" "h") "Get" "/user".
Proof. apply Remove_method_case_insensitive. reflexivity. Defined.

Lemma Remove_undoes_Handle_witness :
  (exists r',
      Remove (Handle (Handle emptyRouter "GET" "/a" "h1") "post" "/user" "h")
             "POST" "/user"
      = Some r'
      /\ Permutation (routes r') (routes (Handle emptyRouter "GET" "/a" "h1"))
      /\ Count r' = Count (Handle emptyRouter "GET" "/a" "h1"))
  /\ Remove (Handle (NewRouter "not found") "post" "/user" "h") "POST" "/user"
     = Some (NewRouter "not found").
Proof.
  apply (Remove_undoes_Handle (contract := insertionSort_contract));
    reflexivity.
Defined.

(** ** Len and Swap *)

Section SwapFacts.

Context {A : Type}.

Lemma length_setAt (l : list A) : forall i x, length (setAt l i x) = length l.
Proof.
  induction l as [|a l IH]; intros [|i] x; simpl; try reflexivity.
  rewrite IH. reflexivity.
Qed.

Lemma nth_error_setAt_eq (l : list A) : forall i x,
  i < length l -> nth_error (setAt l i x) i = Some x.
Proof.
  induction l as [|a l IH]; intros [|i] x Hi; simpl in *; try lia.
  - reflexivity.
  - apply IH. lia.
Qed.

Lemma nth_error_setAt_ne (l : list A) : forall i k x,
  k <> i -> nth_error (setAt l i x) k = nth_error l k.
Proof.
  induction l as [|a l IH]; intros [|i] [|k] x Hne; simpl;
    try reflexivity; try congruence.
  apply IH. congruence.
Qed.

Lemma setAt_Permutation (l : list A) : forall k a b,
  nth_error l k = Some b -> Permutation (b :: setAt l k a) (a :: l).
Proof.
  induction l as [|c l IH]; intros [|k] a b Hk; simpl in *; try discriminate.
  - injection Hk as ->. apply perm_swap.
  - rewrite (perm_swap c b (setAt l k a)).
    rewrite (perm_swap c a l).
    apply perm_skip. apply IH. exact Hk.
Qed.

Lemma setAt_setAt_Permutation (l : list A) : forall i j a b,
  nth_error l i = Some a -> nth_error l j = Some b ->
  Permutation (setAt (setAt l i b) j a) l.
Proof.
  induction l as [|c l IH]; intros [|i] [|j] a b Hi Hj; simpl in *;
    try discriminate.
  - injection Hi as ->. injection Hj as ->. reflexivity.
  - injection Hi as ->. apply setAt_Permutation. exact Hj.
  - injection Hj as ->. apply setAt_Permutation. exact Hi.
  - apply perm_skip. apply IH; assumption.
Qed.

End SwapFacts.

(** X20.  [Swap] exchanges the entries at two indexes of the table and
    leaves the others where they are: the table keeps its length and its
    entries, and a second [Swap] at the same indexes gives the table
    back. *)
Theorem Swap_exchanges {Handler : Type} (s : routeList Handler) (i j : nat) :
  i < Len s -> j < Len s ->
  exists s',
    Swap s i j = Some s'
    /\ Len s' = Len s
    /\ Permutation s' s
    /\ nth_error s' i = nth_error s j
    /\ nth_error s' j = nth_error s i
    /\ (forall k, k <> i -> k <> j -> nth_error s' k = nth_error s k)
    /\ Swap s' i j = Some s.
Proof.
  unfold Len, Swap. intros Hi Hj.
  destruct (nth_error s i) as [a|] eqn:Ea;
    [|apply nth_error_None in Ea; lia].
  destruct (nth_error s j) as [b|] eqn:Eb;
    [|apply nth_error_None in Eb; lia].
  exists (setAt (setAt s i b) j a).
  assert (Hsi : nth_error (setAt (setAt s i b) j a) i = Some b).
  { destruct (Nat.eq_dec i j) as [->|Hne].
    - rewrite nth_error_setAt_eq by (rewrite length_setAt; lia). congruence.
    - rewrite nth_error_setAt_ne by exact Hne.
      apply nth_error_setAt_eq. lia. }
  assert (Hsj : nth_error (setAt (setAt s i b) j a) j = Some a).
  { apply nth_error_setAt_eq. rewrite length_setAt. lia. }
  repeat split.
  - rewrite !length_setAt. reflexivity.
  - apply setAt_setAt_Permutation; assumption.
  - exact Hsi.
  - exact Hsj.
  - intros k Hki Hkj. rewrite !nth_error_setAt_ne by assumption. reflexivity.
  - rewrite Hsi, Hsj. f_equal.
    apply nth_error_ext. intros k.
    destruct (Nat.eq_dec k j) as [->|Hkj].
    + rewrite nth_error_setAt_eq by (rewrite !length_setAt; lia).
      symmetry. exact Eb.
    + rewrite nth_error_setAt_ne by exact Hkj.
      destruct (Nat.eq_dec k i) as [->|Hki].
      * rewrite nth_error_setAt_eq by (rewrite !length_setAt; lia).
        symmetry. exact Ea.
      * rewrite !nth_error_setAt_ne by assumption. reflexivity.
Qed.

Lemma Swap_exchanges_witness :
  let s := routes (HandleAll emptyRouter
                     [("GET", "/a", "h1"); ("GET", "/b", "h2");
                      ("GET", "/c", "h3")]) in
  exists s',
    Swap s 0 2 = Some s'
    /\ Len s' = Len s
    /\ Permutation s' s
    /\ nth_error s' 0 = nth_error s 2
    /\ nth_error s' 2 = nth_error s 0
    /\ (forall k, k <> 0 -> k <> 2 -> nth_error s' k = nth_error s k)
    /\ Swap s' 0 2 = Some s.
Proof. apply Swap_exchanges; vm_compute; lia. Defined.

(** ** The router package *)

Section MuxFacts.

Context {sorter : SortAlgorithm} {contract : SortContract}.
Context {HandlerFunc CustomServeHTTP HttpHandler : Type}.
Variable BraceToColon : string -> string.

Implicit Types (m : Mux HandlerFunc CustomServeHTTP HttpHandler)
  (fn : HandlerFunc) (csh : option CustomServeHTTP) (notFound : HttpHandler).

(** X21.  [Clear] undoes a registration made through the [Mux]: the path
    goes through the same conversion in both, so after registering a method
    and path whose key no entry has and clearing them, the method written in
    any case, the table holds the entries it had, as many, and the error
    callback is untouched; a new [Mux] is as new again. *)
Theorem Mux_Clear_undoes_handle m notFound method method' path fn :
  ToLower method = ToLower method' ->
  existsb (keyMatches method' (BraceToColon path)) (routes (router m))
  = false ->
  (exists m',
      Mux_Clear BraceToColon (Mux_handle BraceToColon m method path fn)
                method' path
      = Some m'
      /\ Permutation (routes (router m')) (routes (router m))
      /\ Mux_Count m' = Mux_Count m
      /\ customServeHTTP m' = customServeHTTP m)
  /\ Mux_Clear BraceToColon
               (Mux_handle BraceToColon
                  (Mux_New (CustomServeHTTP := CustomServeHTTP) notFound)
                  method path fn)
               method' path
     = Some (Mux_New notFound).
Proof.
  intros Hm Hno. split.
  - destruct (Remove_after_Handle (router m) method method'
                (BraceToColon path)
                (ambhandler_Handler fn (customServeHTTP m)) Hm Hno)
      as [r' [Hr [Hp _]]].
    exists {| router := r'; customServeHTTP := customServeHTTP m |}.
    unfold Mux_Clear, Mux_handle, Mux_Count. cbn [router customServeHTTP].
    rewrite Hr. repeat split; [exact Hp|].
    unfold Count. apply Permutation_length. exact Hp.
  - unfold Mux_Clear, Mux_handle, Mux_New. cbn [router customServeHTTP].
    rewrite (Remove_after_Handle_new _ method method' _ _ Hm). reflexivity.
Qed.

(** X22.  A handler registered through the [Mux] carries the error callback
    the [Mux] had when it was registered: a request for a route registered
    with [Get] is served by the handler built from its function and that
    callback, also after [SetServeHTTP] has put another callback in the
    [Mux]. *)
Theorem Mux_handler_carries_registration_callback
    notFound csh csh' path fn ctx :
  exists ctx',
    Mux_ServeHTTP
      (Mux_SetServeHTTP
         (Mux_Get BraceToColon (Mux_SetServeHTTP (Mux_New notFound) csh)
                  path fn)
         csh')
      {| Method := "GET"; Path := BraceToColon path; Context_ := ctx |}
    = [ServeRoute (ambhandler_Handler fn csh) ctx'].
Proof.
  unfold Mux_ServeHTTP, Mux_SetServeHTTP, Mux_Get, Mux_handle, Mux_New.
  cbn [router customServeHTTP].
  apply Handle_NewRouter_serves_itself.
Qed.

End MuxFacts.

Lemma Mux_Clear_undoes_handle_witness :
  let mux : Mux nat nat string :=
    Mux_Get (fun s => s) (Mux_New "not found") "/a" 1 in
  (exists m',
      Mux_Clear (fun s => s) (Mux_handle (fun s => s) mux "get" "/user" 2)
                "GET" "/user"
      = Some m'
      /\ Permutation (routes (router m')) (routes (router mux))
      /\ Mux_Count m' = Mux_Count mux
      /\ customServeHTTP m' = customServeHTTP mux)
  /\ Mux_Clear (fun s => s)
               (Mux_handle (fun s => s)
                  (Mux_New (CustomServeHTTP := nat) "not found")
                  "get" "/user" 2)
               "GET" "/user"
     = Some (Mux_New "not found").
Proof.
  apply (Mux_Clear_undoes_handle (contract := insertionSort_contract));
    reflexivity.
Defined.

Lemma Mux_handler_carries_registration_callback_witness :
  exists ctx',
    Mux_ServeHTTP
      (Mux_SetServeHTTP
         (Mux_Get (fun s => s)
                  (Mux_SetServeHTTP (Mux_New (HandlerFunc := nat) "not found")
                                    (Some 1))
                  "/user/:name" 7)
         (Some 2))
      {| Method := "GET"; Path := "/user/:name"; Context_ := [] |}
    = [ServeRoute (ambhandler_Handler 7 (Some 1)) ctx'].
Proof.
  apply (Mux_handler_carries_registration_callback
           (contract := insertionSort_contract) (fun s => s)).
Defined.

(** ** Prefix routes and precedence *)

Section Precedence.

Context {Handler : Type}.

Implicit Types (r : Router Handler) (rt x : route Handler) (ctx : Ctx).

Lemma match_loop_extra rsegs : forall ctx reqSegs extra ctx',
  match_loop ctx rsegs 0 reqSegs = Some ctx' ->
  match_loop ctx rsegs 0 (reqSegs ++ extra) = Some ctx'.
Proof.
  induction rsegs as [|seg rest IH]; intros ctx reqSegs extra ctx'.
  - simpl. exact (fun H => H).
  - destruct reqSegs as [|v reqSegs]; [discriminate|].
    change ((v :: reqSegs) ++ extra) with (v :: (reqSegs ++ extra)).
    rewrite !match_loop_cons.
    destruct (isParam seg); [apply IH|].
    destruct (_ && _); [exact (fun H => H)|].
    destruct (String.eqb seg v); [apply IH | discriminate].
Qed.

(** X23.  For a prefix route, segments added at the end of a request that
    matches change nothing: the longer request matches too, with the same
    parameters. *)
Theorem prefix_route_ignores_extra_segments rt ctx reqSegs extra ctx' :
  prefix rt = true ->
  route_match rt ctx reqSegs = Some ctx' ->
  route_match rt ctx (reqSegs ++ extra) = Some ctx'.
Proof.
  unfold route_match. intros ->. rewrite !andb_false_r.
  apply match_loop_extra.
Qed.

(** X24.  On a sorted table the route that serves a request is, among the
    routes that accept it, one that the comparator puts first: no accepting
    route sorts before it, whatever the order of registration was. *)
Theorem dispatch_serves_first_in_order r req x :
  let m := ToLower (Method req) in
  let reqSegs := pathSegments (Path req) in
  IsSorted routeLess (routes r) = true ->
  In x (routes r) ->
  accepts x m (Context_ req) reqSegs = true ->
  exists rt ctx',
    In rt (routes r)
    /\ accepts rt m (Context_ req) reqSegs = true
    /\ ServeHTTP r req = [ServeRoute (handler rt) ctx']
    /\ forall y, In y (routes r) -> y <> rt ->
         accepts y m (Context_ req) reqSegs = true ->
         routeLess y rt = false.
Proof.
  intros m reqSegs Hs Hx Hacc.
  destruct (first_accepting (routes r) m reqSegs (Context_ req))
    as [[pre [rt [post [ctx' [E [Hpre [Hm Hrt]]]]]]] | Hno].
  - exists rt, ctx'.
    assert (Hrtacc : accepts rt m (Context_ req) reqSegs = true).
    { unfold accepts. rewrite Hm, Hrt. reflexivity. }
    split; [rewrite E; apply in_or_app; right; left; reflexivity|].
    split; [exact Hrtacc|]. split.
    + unfold ServeHTTP. fold m reqSegs. rewrite E.
      apply ServeHTTP_loop_first; assumption.
    + intros y Hy Hne Hyacc. rewrite E in Hy.
      apply in_app_or in Hy. destruct Hy as [Hy|[<-|Hy]].
      * rewrite (Hpre y Hy) in Hyacc. discriminate.
      * congruence.
      * apply IsSorted_StronglySorted in Hs. rewrite E in Hs.
        clear - Hs Hy.
        induction pre as [|p0 pre IH]; simpl in Hs.
        -- inversion Hs as [|? ? _ Hall]; subst.
           rewrite Forall_forall in Hall. apply Hall. exact Hy.
        -- inversion Hs; subst. apply IH. assumption.
  - rewrite (Hno x Hx) in Hacc. discriminate.
Qed.

End Precedence.

Lemma prefix_route_ignores_extra_segments_witness :
  route_match (newRoute "GET" "/files/:name/" "h") []
              (["files"; "a.txt"] ++ ["raw"; "v2"])
  = Some [("name", "a.txt")].
Proof.
  apply prefix_route_ignores_extra_segments; reflexivity.
Defined.

Lemma dispatch_serves_first_in_order_witness :
  let r := HandleAll emptyRouter
             [("GET", "/cool/:slug", "by slug"); ("GET", "/:any", "any");
              ("GET", "/cool/balloon", "balloon")] in
  let req := request "GET" "/cool/balloon" in
  exists rt ctx',
    In rt (routes r)
    /\ accepts rt (ToLower (Method req)) (Context_ req)
               (pathSegments (Path req)) = true
    /\ ServeHTTP r req = [ServeRoute (handler rt) ctx']
    /\ forall y, In y (routes r) -> y <> rt ->
         accepts y (ToLower (Method req)) (Context_ req)
                 (pathSegments (Path req)) = true ->
         routeLess y rt = false.
Proof.
  apply (dispatch_serves_first_in_order
           (HandleAll emptyRouter
             [("GET", "/cool/:slug", "by slug"); ("GET", "/:any", "any");
              ("GET", "/cool/balloon", "balloon")])
           (request "GET" "/cool/balloon")
           (newRoute "GET" "/cool/:slug" "by slug")).
  - reflexivity.
  - right. left. reflexivity.
  - reflexivity.
Defined.
